(** * Hadoop-snappy framing ([snappy/snappy_hadoop.py])

    A shallow embedding of the module that frames Snappy blocks in the
    Hadoop-snappy container format, and the properties its description
    states about it.

    Conventions.
    - Python [bytes] are [list byte]; Python [int]s are [Z]; [len] is the
      length as a [Z]; Python [float]s are the binary64 numbers [float].
    - The [/] of [hadoop_snappy_max_input_size] is the true division of
      two [int]s, which gives a [float]; [src.read] does not take a
      [float] for a size and raises [TypeError].
    - A file-like object opened for reading is the list of the bytes not
      yet read; one opened for writing is the list of the bytes written.
    - An exception is a value [Raise e]; the state of the two files at the
      moment it is raised is kept next to it.
    - The codec ([compress], [uncompress]) comes from a compiled extension
      module and is an interface here, see [Codec]. *)

From Stdlib Require Import ZArith List Lia Bool Arith.
From Stdlib Require Import Strings.Byte.
From Stdlib Require Strings.String.
From Stdlib Require Floats.
Import PrimFloat.
From Equations Require Import Equations.
Import ListNotations.
Local Open Scope Z_scope.

Set Implicit Arguments.

(** ** Bytes, lengths, exceptions *)

Definition bytes := list byte.

Definition len {A : Type} (l : list A) : Z := Z.of_nat (length l).

(** The messages of the [UncompressError]s the module raises itself, and
    the one the codec raises on a block it rejects. *)
Inductive uncompress_error : Type :=
| Failed_to_read_compressed_chunk_length
| Failed_to_read_compressed_chunk
| Specified_length_differs (specified real : Z)
| Invalid_compressed_block.

Inductive exn : Type :=
| UncompressError (why : uncompress_error)
| struct_error
| TypeError
| OverflowError.

Inductive result (A : Type) : Type :=
| Ok (a : A)
| Raise (e : exn).
Arguments Ok {A} a.
Arguments Raise {A} e.

(** ** [struct.pack('>I', _)] and [struct.unpack('>I', _)] *)

Definition byte_of_Z (z : Z) : byte :=
  match Byte.of_N (Z.to_N (z mod 256)) with
  | Some b => b
  | None => x00
  end.

Definition Z_of_byte (b : byte) : Z := Z.of_N (Byte.to_N b).

Definition UINT_MAX : Z := 0xFFFFFFFF.

(** [struct.pack('>I', num)]: four bytes, most significant first;
    [struct.error] when [num] is not an unsigned 32-bit number. *)
Definition big_endian_uint (num : Z) : bytes :=
  [byte_of_Z (num / 16777216); byte_of_Z (num / 65536);
   byte_of_Z (num / 256); byte_of_Z num].

Definition struct_pack_I (num : Z) : result bytes :=
  if (0 <=? num) && (num <=? UINT_MAX) then Ok (big_endian_uint num)
  else Raise struct_error.

(** [struct.unpack('>I', data)[0]]: [struct.error] unless [data] has
    exactly four bytes. *)
Definition struct_unpack_I (data : bytes) : result Z :=
  match data with
  | [b0; b1; b2; b3] =>
      Ok (((Z_of_byte b0 * 256 + Z_of_byte b1) * 256 + Z_of_byte b2) * 256
          + Z_of_byte b3)
  | _ => Raise struct_error
  end.

(** ** The codec *)

(** [compress] and [uncompress] of the extension module ([_compress] and
    [_uncompress] in the source are aliases of them). [uncompress] raises
    on a block it does not accept. *)
Class Codec : Type := {
  compress : bytes -> bytes;
  uncompress : bytes -> result bytes
}.

(** What the framing relies on from Snappy: blocks decode to what was
    encoded, a block is never empty (it starts with the length preamble)
    and it is at most [32 + n + n / 6] bytes long for [n] bytes of input. *)
Class CodecLaws (C : Codec) : Prop := {
  uncompress_compress : forall d : bytes, uncompress (compress d) = Ok d;
  compress_nonempty : forall d : bytes, compress d <> [];
  compress_bound : forall d : bytes,
      len (compress d) <= 32 + len d + len d / 6
}.

(** ** Sizing *)

Definition SNAPPY_BUFFER_SIZE_DEFAULT : Z := 256 * 1024.

(** The arithmetic of Python on an [int] and a [float]. A [float] is a
    binary64 number; an [int] has no bound. *)
Module PythonNumbers.

(** An integer as a number of the format, exact and not rounded yet. *)
Definition spec_of_int (z : Z) : SpecFloat.spec_float :=
  match z with
  | Z0 => SpecFloat.S754_zero false
  | Zpos p => SpecFloat.S754_finite false p 0
  | Zneg p => SpecFloat.S754_finite true p 0
  end.

(** A rounded result as a [float]; [OverflowError] when the rounding went
    to an infinity. *)
Definition finite_or_overflow (x : SpecFloat.spec_float) : result float :=
  match x with
  | SpecFloat.S754_infinity _ => Raise OverflowError
  | _ => Ok (FloatOps.SF2Prim x)
  end.

(** The integers that a [float] holds exactly, which the interpreter
    converts and divides as machine doubles. *)
Definition is_small (z : Z) : bool := Z.abs z <? 9007199254740992.

Definition small_float (z : Z) : float :=
  match z with
  | Z0 => PrimFloat.zero
  | Zpos _ => PrimFloat.of_uint63 (Uint63Axioms.of_Z z)
  | Zneg p => PrimFloat.opp (PrimFloat.of_uint63 (Uint63Axioms.of_Z (Zpos p)))
  end.

(** [float(z)] for an [int]: the nearest [float], ties to even. *)
Definition float_of_int (z : Z) : result float :=
  if is_small z then Ok (small_float z)
  else finite_or_overflow
         (SpecFloat.binary_normalize FloatOps.prec FloatOps.emax z 0 false).

(** [a / b] for two [int]s, [b] not zero: the [float] nearest to the
    quotient. *)
Definition int_true_divide (a b : Z) : result float :=
  if is_small a && is_small b then
    Ok (PrimFloat.div (small_float a) (small_float b))
  else finite_or_overflow
         (SpecFloat.SFdiv FloatOps.prec FloatOps.emax
            (spec_of_int a) (spec_of_int b)).

(** [x + n] for a [float] and an [int]. *)
Definition float_add_int (x : float) (n : Z) : result float :=
  match float_of_int n with
  | Raise e => Raise e
  | Ok y => Ok (PrimFloat.add x y)
  end.

(** [n - x] for an [int] and a [float]. *)
Definition int_sub_float (n : Z) (x : float) : result float :=
  match float_of_int n with
  | Raise e => Raise e
  | Ok y => Ok (PrimFloat.sub y x)
  end.


End PythonNumbers.

(** [block_size] is [None] or an [int]; [None] and [0] are falsy. The
    quotient is a [float], and so are the overhead and the result. *)
Definition hadoop_snappy_max_input_size (block_size : option Z)
  : result float :=
  let buffer_size :=
    match block_size with
    | None => SNAPPY_BUFFER_SIZE_DEFAULT
    | Some b => if b =? 0 then SNAPPY_BUFFER_SIZE_DEFAULT else b
    end in
  match PythonNumbers.int_true_divide buffer_size 6 with
  | Raise e => Raise e
  | Ok quotient =>
      match PythonNumbers.float_add_int quotient 32 with
      | Raise e => Raise e
      | Ok compression_overhead =>
          PythonNumbers.int_sub_float buffer_size compression_overhead
      end
  end.

Definition prepare_num (num : Z) : result bytes := struct_pack_I num.

(** ** File-like objects and the statements that use them *)

(** [f.read(size)] on the unread bytes [f]: what is read and what is
    left. A negative [size] reads everything. *)
Definition read (size : Z) (f : bytes) : bytes * bytes :=
  if size <? 0 then (f, [])
  else (firstn (Z.to_nat size) f, skipn (Z.to_nat size) f).

Record files : Type := Files { src : bytes; dst : bytes }.

(** Statements run on the two files and return or raise. *)
Definition io (A : Type) : Type := files -> result A * files.

Definition ret {A : Type} (a : A) : io A := fun f => (Ok a, f).

Definition raise {A : Type} (e : exn) : io A := fun f => (Raise e, f).

Definition lift {A : Type} (r : result A) : io A := fun f => (r, f).

Definition bind {A B : Type} (m : io A) (k : A -> io B) : io B :=
  fun f =>
    match m f with
    | (Ok a, f') => k a f'
    | (Raise e, f') => (Raise e, f')
    end.

Notation "x <- m ;; k" := (bind m (fun x => k))
  (at level 61, m at next level, right associativity).

Definition src_read (size : Z) : io bytes :=
  fun f => let (data, rest) := read size (src f) in
           (Ok data, Files rest (dst f)).

(** What is passed to [read] for a size: an [int] or a [float]. *)
Inductive number : Type :=
| Int (z : Z)
| Float (x : float).

(** [src.read(size)]: a [float] is not a size. *)
Definition src_read_size (size : number) : io bytes :=
  match size with
  | Int n => src_read n
  | Float _ => raise TypeError
  end.

Definition dst_write (data : bytes) : io unit :=
  fun f => (Ok tt, Files (src f) (dst f ++ data)).

Definition is_empty {A : Type} (l : list A) : bool :=
  match l with [] => true | _ :: _ => false end.

Definition read_int : io Z :=
  data <- src_read 4 ;;
  if is_empty data then ret 0
  else lift (struct_unpack_I data).

(** ** [StreamCompressor] *)

Module StreamCompressor.
Section WithCodec.
Context {C : Codec}.

Definition add_chunk (data : bytes) : result bytes :=
  let uncompressed_length := len data in
  match prepare_num uncompressed_length with
  | Raise e => Raise e
  | Ok h1 =>
      let compressed_chunk := compress data in
      let compressed_length := len compressed_chunk in
      match prepare_num compressed_length with
      | Raise e => Raise e
      | Ok h2 => Ok (h1 ++ h2 ++ compressed_chunk)
      end
  end.

(** The alias kept for compatibility with [zlib]'s compression objects. *)
Definition compress (data : bytes) : result bytes := add_chunk data.

End WithCodec.
End StreamCompressor.

(** ** [stream_compress] and [stream_decompress] *)

Section Streams.
Context {C : Codec}.

(** One turn of the [while True] of [stream_compress]; [true] means that
    the loop goes on, [false] that it reached [break]. *)
Definition stream_compress_turn (blocksize : number) : io bool :=
  buf <- src_read_size blocksize ;;
  if is_empty buf then ret false
  else
    buf' <- lift (StreamCompressor.add_chunk buf) ;;
    _ <- (if is_empty buf' then ret tt else dst_write buf') ;;
    ret true.

(** One turn of the [while True] of [stream_decompress]. *)
Definition stream_decompress_turn : io bool :=
  uncompressed_length <- read_int ;;
  if uncompressed_length =? 0 then ret false
  else
    compressed_length <- read_int ;;
    if compressed_length =? 0 then
      raise (UncompressError Failed_to_read_compressed_chunk_length)
    else
      compressed_chunk <- src_read compressed_length ;;
      if negb (len compressed_chunk =? compressed_length) then
        raise (UncompressError Failed_to_read_compressed_chunk)
      else
        uncompressed_chunk <- lift (uncompress compressed_chunk) ;;
        if negb (len uncompressed_chunk =? uncompressed_length) then
          raise (UncompressError
                   (Specified_length_differs uncompressed_length
                      (len uncompressed_chunk)))
        else
          _ <- dst_write uncompressed_chunk ;;
          ret true.

(** The value of a term together with the equation that says so, for the
    loops below to know which turn they are continuing. *)
Definition inspect {A : Type} (a : A) : {b : A | a = b} :=
  exist _ a eq_refl.

Lemma read_shrinks (size : Z) (f data rest : bytes) :
  read size f = (data, rest) ->
  (length rest <= length f)%nat /\
  (data <> [] -> (length rest < length f)%nat).
Proof.
  unfold read. destruct (size <? 0) eqn:Hs; intros [= <- <-].
  - split; simpl; [lia |].
    destruct f; [congruence | simpl; lia].
  - rewrite length_skipn. split; [lia |].
    destruct f as [| b f]; [rewrite firstn_nil; congruence |].
    destruct (Z.to_nat size); simpl; [congruence | lia].
Qed.

Lemma read_int_shrinks (f f' : files) (n : Z) :
  read_int f = (Ok n, f') ->
  (length (src f') <= length (src f))%nat /\
  (n <> 0 -> (length (src f') < length (src f))%nat).
Proof.
  unfold read_int, bind, src_read, ret, lift.
  destruct (read 4 (src f)) as [data rest] eqn:Hr.
  destruct (read_shrinks _ _ Hr) as [Hle Hlt].
  destruct data as [| b data]; simpl.
  - intros [= <- <-]. simpl. split; [exact Hle | congruence].
  - intros [= _ <-]. simpl. split; [exact Hle |].
    intros _. apply Hlt. congruence.
Qed.

Lemma stream_compress_turn_shrinks (blocksize : number) (f f' : files) :
  stream_compress_turn blocksize f = (Ok true, f') ->
  (length (src f') < length (src f))%nat.
Proof.
  destruct blocksize as [blocksize | x]; [| discriminate].
  unfold stream_compress_turn, src_read_size.
  unfold bind, src_read, ret, lift, dst_write.
  destruct (read blocksize (src f)) as [buf rest] eqn:Hr.
  destruct (read_shrinks _ _ Hr) as [_ Hlt].
  destruct buf as [| b buf]; simpl; [congruence |].
  destruct (StreamCompressor.add_chunk (b :: buf)) as [out | e];
    [| congruence].
  destruct (is_empty out); simpl; intros [= <-]; simpl;
    apply Hlt; congruence.
Qed.

Lemma stream_decompress_turn_shrinks (f f' : files) :
  stream_decompress_turn f = (Ok true, f') ->
  (length (src f') < length (src f))%nat.
Proof.
  unfold stream_decompress_turn, bind at 1.
  destruct (read_int f) as [[ulen | e] f1] eqn:H1; [| congruence].
  destruct (read_int_shrinks _ H1) as [_ Hlt].
  destruct (ulen =? 0) eqn:Hz; [unfold ret; congruence |].
  apply Z.eqb_neq in Hz. specialize (Hlt Hz).
  unfold bind at 1.
  destruct (read_int f1) as [[clen | e] f2] eqn:H2; [| congruence].
  destruct (read_int_shrinks _ H2) as [Hle2 _].
  destruct (clen =? 0); [unfold raise; congruence |].
  unfold bind at 1, src_read.
  destruct (read clen (src f2)) as [chunk rest] eqn:Hr.
  destruct (read_shrinks _ _ Hr) as [Hle3 _].
  destruct (negb _); [unfold raise; congruence |].
  unfold bind at 1, lift.
  destruct (uncompress chunk) as [out | e]; [| congruence].
  destruct (negb _); [unfold raise; congruence |].
  unfold bind, dst_write, ret. simpl. intros [= <-]. simpl. lia.
Qed.

(** The [while True] of [stream_compress], for what [blocksize] is when
    the loop is entered. *)
Equations? stream_compress_loop (blocksize : number) (f : files)
  : result unit * files by wf (length (src f)) lt :=
  stream_compress_loop blocksize f
    with inspect (stream_compress_turn blocksize f) := {
    | exist _ (Ok true, f') Hturn := stream_compress_loop blocksize f'
    | exist _ (Ok false, f') _ := (Ok tt, f')
    | exist _ (Raise e, f') _ := (Raise e, f') }.
Proof. exact (stream_compress_turn_shrinks _ _ Hturn). Qed.

(** [stream_compress(src, dst, blocksize)]: [blocksize] is replaced by
    what [hadoop_snappy_max_input_size(blocksize)] returns, a [float]. *)
Definition stream_compress (blocksize : option Z) (f : files)
  : result unit * files :=
  match hadoop_snappy_max_input_size blocksize with
  | Raise e => (Raise e, f)
  | Ok blocksize => stream_compress_loop (Float blocksize) f
  end.

Equations? stream_decompress (f : files)
  : result unit * files by wf (length (src f)) lt :=
  stream_decompress f with inspect (stream_decompress_turn f) := {
    | exist _ (Ok true, f') Hturn := stream_decompress f'
    | exist _ (Ok false, f') _ := (Ok tt, f')
    | exist _ (Raise e, f') _ := (Raise e, f') }.
Proof. exact (stream_decompress_turn_shrinks _ Hturn). Qed.

End Streams.

(** ** The incremental decoder *)

Module StreamDecompressor.

(** Modelled from the spec: the class [StreamDecompressor], which the
    tests drive, is not in [snappy_hadoop.py]. The cursor says which part
    of a frame the decoder expects next; the lengths already parsed
    travel with it. *)
Inductive cursor : Type :=
| AwaitUncompressedLen
| AwaitCompressedLen (uncompressed_length : Z)
| AwaitCompressedBody (uncompressed_length compressed_length : Z).

(** Modelled from the spec: the state of one decoder, the bytes received
    that do not form a complete field or body yet, and the cursor. *)
Record decoder : Type := Decoder { buffer : bytes; expects : cursor }.

(** Modelled from the spec: a decoder is created empty, expecting an
    uncompressed-length field. *)
Definition create : decoder := Decoder [] AwaitUncompressedLen.

Section WithCodec.
Context {C : Codec}.

(** Modelled from the spec: one transition of the state machine, [None]
    when the buffer does not hold the awaited field or body yet. A length
    field is parsed once four bytes are there (a zero uncompressed length
    is an empty chunk like any other); a body is handed to the codec once
    [compressed_length] bytes are there, and what it returns is produced
    when its length is the declared one, a mismatch error raised when not. *)
Definition advance (d : decoder) : option (result (bytes * decoder)) :=
  match expects d with
  | AwaitUncompressedLen =>
      if 4 <=? len (buffer d) then
        match struct_unpack_I (firstn 4 (buffer d)) with
        | Ok n =>
            Some (Ok ([], Decoder (skipn 4 (buffer d)) (AwaitCompressedLen n)))
        | Raise e => Some (Raise e)
        end
      else None
  | AwaitCompressedLen ulen =>
      if 4 <=? len (buffer d) then
        match struct_unpack_I (firstn 4 (buffer d)) with
        | Ok n =>
            Some (Ok ([], Decoder (skipn 4 (buffer d))
                            (AwaitCompressedBody ulen n)))
        | Raise e => Some (Raise e)
        end
      else None
  | AwaitCompressedBody ulen clen =>
      if clen <=? len (buffer d) then
        match uncompress (firstn (Z.to_nat clen) (buffer d)) with
        | Ok out =>
            if len out =? ulen then
              Some (Ok (out, Decoder (skipn (Z.to_nat clen) (buffer d))
                               AwaitUncompressedLen))
            else
              Some (Raise (UncompressError
                             (Specified_length_differs ulen (len out))))
        | Raise e => Some (Raise e)
        end
      else None
  end.

(** Modelled from the spec: what bounds the transitions a buffer allows.
    Parsing a length field consumes four bytes; completing a body may
    consume none, and leaves the body state. *)
Definition pending (d : decoder) : nat :=
  match expects d with
  | AwaitCompressedBody _ _ => 2 * length (buffer d) + 1
  | _ => 2 * length (buffer d)
  end.

Lemma advance_consumes (d d' : decoder) (out : bytes) :
  advance d = Some (Ok (out, d')) -> (pending d' < pending d)%nat.
Proof.
  intros Hadv.
  unfold advance, pending in *.
  destruct d as [buf cur]; cbn [buffer expects] in *.
  destruct cur as [| ulen | ulen clen].
  - destruct (4 <=? len buf) eqn:Hl; [| discriminate].
    destruct (struct_unpack_I _); [| discriminate].
    injection Hadv as <- <-. cbn [buffer expects].
    pose proof (length_skipn 4 buf) as Hs. simpl in Hs.
    apply Z.leb_le in Hl. unfold len in Hl. lia.
  - destruct (4 <=? len buf) eqn:Hl; [| discriminate].
    destruct (struct_unpack_I _); [| discriminate].
    injection Hadv as <- <-. cbn [buffer expects].
    pose proof (length_skipn 4 buf) as Hs. simpl in Hs.
    apply Z.leb_le in Hl. unfold len in Hl. lia.
  - destruct (clen <=? len buf); [| discriminate].
    destruct (uncompress _) as [o |]; [| discriminate].
    destruct (len o =? ulen); [| discriminate].
    injection Hadv as <- <-. cbn [buffer expects].
    rewrite length_skipn. lia.
Qed.

(** Modelled from the spec: transitions are taken as long as the buffer
    allows, the decoded chunks are appended to the output of the call. *)
Equations? drain (d : decoder) : result (bytes * decoder)
  by wf (pending d) lt :=
  drain d with inspect (advance d) := {
    | exist _ None _ := Ok ([], d)
    | exist _ (Some (Raise e)) _ := Raise e
    | exist _ (Some (Ok (out, d'))) Hadv :=
        match drain d' with
        | Ok (out', d'') => Ok (out ++ out', d'')
        | Raise e => Raise e
        end }.
Proof. exact (advance_consumes _ Hadv). Qed.

(** Modelled from the spec: [decompress(piece)] appends the piece to the
    buffer, returns what can be decoded and keeps the rest for the next
    call. *)
Definition decompress (piece : bytes) (d : decoder)
  : result (bytes * decoder) :=
  drain (Decoder (buffer d ++ piece) (expects d)).

(** Modelled from the spec: the pieces fed in order to one decoder, the
    outputs of the calls concatenated. *)
Fixpoint feed (pieces : list bytes) (d : decoder)
  : result (bytes * decoder) :=
  match pieces with
  | [] => Ok ([], d)
  | piece :: rest =>
      match decompress piece d with
      | Raise e => Raise e
      | Ok (out, d') =>
          match feed rest d' with
          | Raise e => Raise e
          | Ok (out', d'') => Ok (out ++ out', d'')
          end
      end
  end.

(** The decoder [d] with [more] bytes behind those it holds. *)
Definition extend (d : decoder) (more : bytes) : decoder :=
  Decoder (buffer d ++ more) (expects d).

(** After a call that returned [r], a call on [more]: the outputs end to
    end, or the first error. *)
Definition then_drain (more : bytes) (r : result (bytes * decoder))
  : result (bytes * decoder) :=
  match r with
  | Raise e => Raise e
  | Ok (out, d) =>
      match drain (extend d more) with
      | Raise e => Raise e
      | Ok (out', d') => Ok (out ++ out', d')
      end
  end.

End WithCodec.
End StreamDecompressor.

(** ** Two codecs to run the framing on *)

Module TestCodecs.

(** A block is a zero byte followed by the data as it is. *)
Definition stored : Codec := {|
  compress := fun d => x00 :: d;
  uncompress := fun c =>
    match c with
    | x00 :: d => Ok d
    | _ => Raise (UncompressError Invalid_compressed_block)
    end
|}.

(** The length [n] of the data of a padded block of [total] bytes. *)
Definition padded_data_length (total : Z) : Z := ((total - 32) * 6 + 6) / 7.

(** A block is the data followed by [32 + n / 6] zero bytes: the largest
    block the bound of [CodecLaws] allows. *)
Definition padded : Codec := {|
  compress := fun d => d ++ repeat x00 (Z.to_nat (32 + len d / 6));
  uncompress := fun c =>
    let n := padded_data_length (len c) in
    if (32 <=? len c) && (n + n / 6 + 32 =? len c) then
      Ok (firstn (Z.to_nat n) c)
    else Raise (UncompressError Invalid_compressed_block)
|}.

End TestCodecs.

(** ** The vocabulary of the statements *)

Section Frames.
Context {C : Codec}.

(** A frame on the wire, with the declared lengths and the body given. *)
Definition raw_frame (uncompressed_length : Z) (body : bytes) : bytes :=
  big_endian_uint uncompressed_length ++ big_endian_uint (len body) ++ body.

(** The frame of a chunk [d]. *)
Definition frame (d : bytes) : bytes := raw_frame (len d) (compress d).

Definition frames (ds : list bytes) : bytes := concat (map frame ds).

(** Both lengths of the frame of [d] fit their four-byte fields. *)
Definition encodable (d : bytes) : Prop :=
  len d <= UINT_MAX /\ len (compress d) <= UINT_MAX.

(** The chunks before the first empty one. *)
Fixpoint leading_nonempty (ds : list bytes) : list bytes :=
  match ds with
  | [] => []
  | d :: ds' => if is_empty d then [] else d :: leading_nonempty ds'
  end.

End Frames.

(** The error a stream raises when it stops [k] bytes into the frame of a
    chunk that is not empty. *)
Definition truncation_error (k : nat) : exn :=
  if (k <? 4)%nat then struct_error
  else if (k =? 4)%nat then
    UncompressError Failed_to_read_compressed_chunk_length
  else if (k <? 8)%nat then struct_error
  else UncompressError Failed_to_read_compressed_chunk.

(** * Properties *)

(** Boolean comparisons in the hypotheses, as propositions for [lia]. *)
Ltac comparisons :=
  repeat match goal with
  | H : (_ <? _) = true |- _ => apply Z.ltb_lt in H
  | H : (_ <? _) = false |- _ => apply Z.ltb_ge in H
  | H : (_ <=? _) = true |- _ => apply Z.leb_le in H
  | H : (_ <=? _) = false |- _ => apply Z.leb_gt in H
  | H : (_ =? _) = true |- _ => apply Z.eqb_eq in H
  | H : (_ =? _) = false |- _ => apply Z.eqb_neq in H
  end.

(** ** Length fields *)

Lemma len_nonneg {A : Type} (l : list A) : 0 <= len l.
Proof. unfold len. lia. Qed.

Lemma len_app {A : Type} (l1 l2 : list A) : len (l1 ++ l2) = len l1 + len l2.
Proof. unfold len. rewrite length_app. lia. Qed.

Lemma len_nil_iff {A : Type} (l : list A) : len l = 0 <-> l = [].
Proof.
  unfold len. split.
  - destruct l; [reflexivity | simpl; lia].
  - intros ->. reflexivity.
Qed.

Lemma Z_of_byte_range (b : byte) : 0 <= Z_of_byte b < 256.
Proof.
  unfold Z_of_byte. pose proof (Byte.to_N_bounded b). lia.
Qed.

Lemma Z_of_byte_of_Z (z : Z) : Z_of_byte (byte_of_Z z) = z mod 256.
Proof.
  unfold Z_of_byte, byte_of_Z.
  pose proof (Z.mod_pos_bound z 256 ltac:(lia)) as Hm.
  destruct (Byte.of_N (Z.to_N (z mod 256))) as [b |] eqn:Hb.
  - apply Byte.to_of_N in Hb. rewrite Hb. lia.
  - apply Byte.of_N_None_iff in Hb. lia.
Qed.

Lemma big_endian_uint_length (num : Z) : length (big_endian_uint num) = 4%nat.
Proof. reflexivity. Qed.

Lemma struct_unpack_big_endian_uint (num : Z) :
  0 <= num <= UINT_MAX ->
  struct_unpack_I (big_endian_uint num) = Ok num.
Proof.
  unfold UINT_MAX, big_endian_uint, struct_unpack_I. intros Hn.
  rewrite !Z_of_byte_of_Z. f_equal.
  replace 16777216 with (256 * (256 * 256)) by reflexivity.
  replace 65536 with (256 * 256) by reflexivity.
  rewrite <- !Z.div_div by lia.
  pose proof (Z.div_mod num 256 ltac:(lia)).
  pose proof (Z.div_mod (num / 256) 256 ltac:(lia)).
  pose proof (Z.div_mod (num / 256 / 256) 256 ltac:(lia)).
  pose proof (Z.div_mod (num / 256 / 256 / 256) 256 ltac:(lia)).
  assert (num / 256 / 256 / 256 / 256 = 0)
    by (rewrite !Z.div_div by lia; apply Z.div_small; lia).
  lia.
Qed.

Lemma prepare_num_in_range (num : Z) :
  0 <= num <= UINT_MAX -> prepare_num num = Ok (big_endian_uint num).
Proof.
  intros [H0 H1]. unfold prepare_num, struct_pack_I.
  apply Z.leb_le in H0, H1. rewrite H0, H1. reflexivity.
Qed.

Lemma prepare_num_out_of_range (num : Z) :
  UINT_MAX < num -> prepare_num num = Raise struct_error.
Proof.
  intros Hn. unfold prepare_num, struct_pack_I.
  apply Z.leb_gt in Hn. rewrite Hn, andb_false_r. reflexivity.
Qed.

Lemma prepare_num_Ok (num : Z) (h : bytes) :
  prepare_num num = Ok h ->
  0 <= num <= UINT_MAX /\ h = big_endian_uint num.
Proof.
  unfold prepare_num, struct_pack_I.
  destruct (0 <=? num) eqn:H0; [| discriminate].
  destruct (num <=? UINT_MAX) eqn:H1; [| discriminate].
  apply Z.leb_le in H0, H1.
  simpl. intros [= <-]. split; [lia | reflexivity].
Qed.

(** ** Reading *)

Lemma read_app (data rest : bytes) :
  read (len data) (data ++ rest) = (data, rest).
Proof.
  unfold read, len.
  destruct (Z.of_nat (length data) <? 0) eqn:Hn; [comparisons; lia |].
  rewrite Nat2Z.id, firstn_app, skipn_app, Nat.sub_diag.
  rewrite firstn_all, skipn_all, firstn_O, skipn_O, app_nil_r.
  reflexivity.
Qed.

Lemma read_short (size : Z) (f : bytes) :
  len f < size -> read size f = (f, []).
Proof.
  intros Hl. unfold read, len in *.
  destruct (size <? 0) eqn:Hn; [reflexivity |]. comparisons.
  rewrite firstn_all2, skipn_all2 by lia. reflexivity.
Qed.

Lemma read_int_field (num : Z) (rest out : bytes) :
  0 <= num <= UINT_MAX ->
  read_int (Files (big_endian_uint num ++ rest) out)
  = (Ok num, Files rest out).
Proof.
  intros Hn. unfold read_int, bind, src_read. cbn [src dst].
  change 4 with (len (big_endian_uint num)). rewrite read_app.
  cbn [is_empty big_endian_uint]. unfold lift.
  fold (big_endian_uint num).
  rewrite struct_unpack_big_endian_uint by exact Hn. reflexivity.
Qed.

Lemma read_int_at_end (out : bytes) :
  read_int (Files [] out) = (Ok 0, Files [] out).
Proof. reflexivity. Qed.

Lemma read_int_short (b : byte) (f out : bytes) :
  (length f < 3)%nat ->
  read_int (Files (b :: f) out) = (Raise struct_error, Files [] out).
Proof.
  intros Hl. unfold read_int, bind, src_read. cbn [src dst].
  rewrite read_short by (unfold len; simpl; lia).
  destruct f as [| b1 [| b2 [| b3 f]]]; simpl in *; try reflexivity; lia.
Qed.

(** ** One frame *)

Section FrameFacts.
Context {C : Codec}.

Lemma add_chunk_frame (d : bytes) :
  encodable d -> StreamCompressor.add_chunk d = Ok (frame d).
Proof.
  intros [Hd Hc]. unfold StreamCompressor.add_chunk.
  rewrite !prepare_num_in_range by (split; [apply len_nonneg | assumption]).
  reflexivity.
Qed.

Lemma add_chunk_Ok (d e : bytes) :
  StreamCompressor.add_chunk d = Ok e -> e = frame d /\ encodable d.
Proof.
  unfold StreamCompressor.add_chunk.
  destruct (prepare_num (len d)) as [h1 |] eqn:H1; [| discriminate].
  destruct (prepare_num (len (compress d))) as [h2 |] eqn:H2;
    [| discriminate].
  apply prepare_num_Ok in H1, H2.
  destruct H1 as [R1 ->], H2 as [R2 ->].
  intros [= <-]. split; [reflexivity | split; lia].
Qed.

Lemma frame_length (d : bytes) : len (frame d) = 8 + len (compress d).
Proof.
  unfold frame, raw_frame, len.
  rewrite !length_app, !big_endian_uint_length. lia.
Qed.

Lemma stream_decompress_turns (f : files) :
  stream_decompress f =
  match stream_decompress_turn f with
  | (Ok true, f') => stream_decompress f'
  | (Ok false, f') => (Ok tt, f')
  | (Raise e, f') => (Raise e, f')
  end.
Proof.
  rewrite stream_decompress_equation_1.
  destruct (inspect (stream_decompress_turn f)) as [[[[|] | e] f'] H];
    simpl; rewrite H; reflexivity.
Qed.

Lemma stream_compress_loop_turns (blocksize : number) (f : files) :
  stream_compress_loop blocksize f =
  match stream_compress_turn blocksize f with
  | (Ok true, f') => stream_compress_loop blocksize f'
  | (Ok false, f') => (Ok tt, f')
  | (Raise e, f') => (Raise e, f')
  end.
Proof.
  rewrite stream_compress_loop_equation_1.
  destruct (inspect (stream_compress_turn blocksize f))
    as [[[[|] | e] f'] H]; simpl; rewrite H; reflexivity.
Qed.

(** What one turn of [stream_decompress] does on a complete frame. *)
Lemma stream_decompress_turn_raw_frame
  (ulen : Z) (body rest out : bytes) :
  0 < ulen <= UINT_MAX -> 0 < len body <= UINT_MAX ->
  stream_decompress_turn (Files (raw_frame ulen body ++ rest) out) =
  match uncompress body with
  | Raise e => (Raise e, Files rest out)
  | Ok u =>
      if len u =? ulen then (Ok true, Files rest (out ++ u))
      else (Raise (UncompressError (Specified_length_differs ulen (len u))),
            Files rest out)
  end.
Proof.
  intros Hu Hb. unfold stream_decompress_turn, raw_frame.
  rewrite <- !app_assoc. unfold bind at 1.
  rewrite read_int_field by lia.
  destruct (ulen =? 0) eqn:Hz; [comparisons; lia |].
  unfold bind at 1. rewrite read_int_field by lia.
  destruct (len body =? 0) eqn:Hz'; [comparisons; lia |].
  unfold bind at 1, src_read. cbn [src dst]. rewrite read_app.
  rewrite Z.eqb_refl. cbn [negb]. unfold bind at 1, lift.
  destruct (uncompress body) as [u | e]; [| reflexivity].
  destruct (len u =? ulen); reflexivity.
Qed.

End FrameFacts.

(** ** The codecs of [TestCodecs] are codecs *)

Lemma stored_laws : CodecLaws TestCodecs.stored.
Proof.
  split; intros d; cbn [compress uncompress TestCodecs.stored].
  - reflexivity.
  - discriminate.
  - change (x00 :: d) with ([x00] ++ d). rewrite len_app.
    pose proof (Z.div_pos (len d) 6 (len_nonneg d) ltac:(lia)).
    change (len [x00]) with 1. lia.
Qed.

Lemma padded_length (d : bytes) :
  len (compress (Codec := TestCodecs.padded) d) = len d + len d / 6 + 32.
Proof.
  cbn [compress TestCodecs.padded].
  pose proof (Z.div_pos (len d) 6 (len_nonneg d) ltac:(lia)).
  rewrite len_app. unfold len at 2. rewrite repeat_length.
  rewrite Z2Nat.id by lia. lia.
Qed.

Lemma padded_data_length_spec (n : Z) :
  0 <= n -> TestCodecs.padded_data_length (n + n / 6 + 32) = n.
Proof.
  intros Hn. unfold TestCodecs.padded_data_length.
  pose proof (Z.div_mod n 6 ltac:(lia)) as Hq.
  pose proof (Z.mod_pos_bound n 6 ltac:(lia)) as Hr.
  replace ((n + n / 6 + 32 - 32) * 6 + 6)
    with (n * 7 + (6 * (n mod 6) + 6 - (n mod 6) * 7)) by lia.
  rewrite Z.div_add_l by lia.
  rewrite Z.div_small by lia. lia.
Qed.

Lemma padded_laws : CodecLaws TestCodecs.padded.
Proof.
  split; intros d.
  - pose proof (padded_length d) as Hl.
    pose proof (len_nonneg d) as Hd.
    pose proof (Z.div_pos (len d) 6 Hd ltac:(lia)) as Hq.
    cbn [uncompress TestCodecs.padded].
    change (d ++ repeat x00 (Z.to_nat (32 + len d / 6)))
      with (compress (Codec := TestCodecs.padded) d).
    rewrite Hl, padded_data_length_spec by exact Hd.
    rewrite Z.eqb_refl.
    destruct (32 <=? len d + len d / 6 + 32) eqn:H32;
      [| comparisons; lia].
    cbn [andb compress TestCodecs.padded]. f_equal.
    unfold len. rewrite Nat2Z.id, firstn_app, Nat.sub_diag, firstn_all.
    rewrite firstn_O, app_nil_r. reflexivity.
  - intros He. pose proof (padded_length d) as Hl. rewrite He in Hl.
    pose proof (len_nonneg d) as Hd.
    pose proof (Z.div_pos (len d) 6 Hd ltac:(lia)) as Hq.
    unfold len at 1 in Hl. simpl in Hl. lia.
  - rewrite padded_length. lia.
Qed.

(** ** [StreamCompressor.add_chunk] *)

(** C2. For every [data] whose length and whose compressed length fit a
    four-byte field, the empty one included, [add_chunk data] returns one
    complete frame and nothing else: the big-endian length of [data], the
    big-endian length of [compress data], then [compress data]; both
    fields have four bytes and unpack to the lengths, and for empty
    [data] the first field is four zero bytes. *)
Theorem add_chunk_is_one_frame (C : Codec) (data : bytes) :
  len data <= UINT_MAX -> len (compress data) <= UINT_MAX ->
  StreamCompressor.add_chunk data
  = Ok (big_endian_uint (len data)
        ++ big_endian_uint (len (compress data))
        ++ compress data)
  /\ length (big_endian_uint (len data)) = 4%nat
  /\ struct_unpack_I (big_endian_uint (len data)) = Ok (len data)
  /\ length (big_endian_uint (len (compress data))) = 4%nat
  /\ struct_unpack_I (big_endian_uint (len (compress data)))
     = Ok (len (compress data))
  /\ (data = [] -> big_endian_uint (len data) = [x00; x00; x00; x00]).
Proof.
  intros Hd Hc.
  pose proof (len_nonneg data). pose proof (len_nonneg (compress data)).
  split; [apply add_chunk_frame; split; assumption |].
  repeat split.
  - apply struct_unpack_big_endian_uint. lia.
  - apply struct_unpack_big_endian_uint. lia.
  - intros ->. reflexivity.
Qed.

Lemma add_chunk_is_one_frame_witness :
  StreamCompressor.add_chunk (C := TestCodecs.stored) []
  = Ok ([x00; x00; x00; x00] ++ [x00; x00; x00; x01] ++ [x00]).
Proof.
  destruct (@add_chunk_is_one_frame TestCodecs.stored [])
    as [H _]; [vm_compute; discriminate | vm_compute; discriminate |].
  exact H.
Defined.

(** ** [stream_decompress] on frames *)

Section Decoding.
Context {C : Codec}.

Lemma frame_app_nil_l (ds : list bytes) (rest : bytes) (d : bytes) :
  frames (d :: ds) ++ rest = frame d ++ frames ds ++ rest.
Proof. unfold frames. simpl. rewrite <- app_assoc. reflexivity. Qed.

(** A zero uncompressed-length field ends the loop: nothing after the
    field is read, nothing is written. *)
Lemma stream_decompress_zero_field (rest out : bytes) :
  stream_decompress (Files (big_endian_uint 0 ++ rest) out)
  = (Ok tt, Files rest out).
Proof.
  rewrite stream_decompress_turns. unfold stream_decompress_turn.
  unfold bind at 1.
  rewrite read_int_field by (unfold UINT_MAX; lia). reflexivity.
Qed.

Lemma stream_decompress_at_end (out : bytes) :
  stream_decompress (Files [] out) = (Ok tt, Files [] out).
Proof. rewrite stream_decompress_turns. reflexivity. Qed.

Lemma stream_decompress_short_field (b : byte) (tail out : bytes) :
  (length tail < 3)%nat ->
  stream_decompress (Files (b :: tail) out)
  = (Raise struct_error, Files [] out).
Proof.
  intros Hl. rewrite stream_decompress_turns.
  unfold stream_decompress_turn, bind at 1.
  rewrite read_int_short by exact Hl. reflexivity.
Qed.

Context {L : CodecLaws C}.

Lemma compress_len_pos (d : bytes) : 0 < len (compress d).
Proof.
  pose proof (len_nonneg (compress d)) as Hn.
  pose proof (compress_nonempty d) as He.
  destruct (Z.eq_dec (len (compress d)) 0) as [Hz |]; [| lia].
  apply len_nil_iff in Hz. contradiction.
Qed.

(** One turn on the frame of a chunk that is not empty writes the chunk. *)
Lemma stream_decompress_frame (d rest out : bytes) :
  encodable d -> d <> [] ->
  stream_decompress (Files (frame d ++ rest) out)
  = stream_decompress (Files rest (out ++ d)).
Proof.
  intros [Hd Hc] Hne. rewrite stream_decompress_turns. unfold frame.
  assert (0 < len d).
  { pose proof (len_nonneg d). destruct (Z.eq_dec (len d) 0) as [Hz |];
      [apply len_nil_iff in Hz; contradiction | lia]. }
  pose proof (compress_len_pos d).
  rewrite stream_decompress_turn_raw_frame by lia.
  rewrite uncompress_compress, Z.eqb_refl. reflexivity.
Qed.

Lemma stream_decompress_frames (ds : list bytes) (rest out : bytes) :
  Forall (fun d => encodable d /\ d <> []) ds ->
  stream_decompress (Files (frames ds ++ rest) out)
  = stream_decompress (Files rest (out ++ concat ds)).
Proof.
  intros Hds. revert out.
  induction Hds as [| d ds [He Hne] _ IH]; intros out.
  - simpl. rewrite app_nil_r. reflexivity.
  - rewrite frame_app_nil_l, stream_decompress_frame by assumption.
    rewrite IH. simpl. rewrite app_assoc. reflexivity.
Qed.

(** Frames in a row are decoded up to the first empty chunk. *)
Lemma stream_decompress_leading (ds : list bytes) (out : bytes) :
  Forall encodable ds ->
  exists left : bytes,
    stream_decompress (Files (frames ds) out)
    = (Ok tt, Files left (out ++ concat (leading_nonempty ds))).
Proof.
  intros Hds. revert out. induction Hds as [| d ds He _ IH]; intros out.
  - exists []. simpl. rewrite app_nil_r. apply stream_decompress_at_end.
  - destruct d as [| b d].
    + eexists. unfold frames. cbn [map concat leading_nonempty is_empty].
      unfold frame at 1, raw_frame. rewrite <- !app_assoc.
      change (len []) with 0 at 1.
      rewrite stream_decompress_zero_field. simpl. rewrite app_nil_r.
      reflexivity.
    + pose proof (frame_app_nil_l ds [] (b :: d)) as Hf.
      rewrite !app_nil_r in Hf. rewrite Hf.
      rewrite stream_decompress_frame by (assumption || discriminate).
      destruct (IH (out ++ b :: d)) as [left Hl]. exists left.
      rewrite Hl. cbn [leading_nonempty is_empty concat].
      rewrite app_assoc. reflexivity.
Qed.

End Decoding.

(** ** [stream_compress] *)

Section Encoding.
Context {C : Codec} {L : CodecLaws C}.

Lemma chunk_encodable (n : Z) (c : bytes) :
  32 + n + n / 6 <= UINT_MAX -> len c <= n -> encodable c.
Proof.
  intros Hb Hc. pose proof (len_nonneg c) as H0.
  pose proof (compress_bound c) as Hcb.
  pose proof (Z.div_le_mono (len c) n 6 ltac:(lia) Hc) as Hdiv.
  pose proof (Z.div_pos (len c) 6 H0 ltac:(lia)) as Hq.
  split; lia.
Qed.

(** With a positive block size the source is cut into chunks of at most
    that size, none of them empty, and the frames of the chunks are
    written one after the other. *)
Lemma stream_compress_loop_frames (n : Z) :
  0 < n -> 32 + n + n / 6 <= UINT_MAX ->
  forall d out : bytes,
  exists ds : list bytes,
    concat ds = d
    /\ Forall (fun c => encodable c /\ c <> []) ds
    /\ Forall (fun c => len c <= n) ds
    /\ stream_compress_loop (Int n) (Files d out)
       = (Ok tt, Files [] (out ++ frames ds)).
Proof.
  intros Hn Hb d. remember (length d) as k eqn:Hk. revert d Hk.
  induction k as [k IH] using lt_wf_ind. intros d Hk out.
  rewrite stream_compress_loop_turns.
  unfold stream_compress_turn, src_read_size.
  unfold bind at 1, src_read, read. cbn [src dst].
  destruct (n <? 0) eqn:Hneg; [comparisons; lia |]. clear Hneg.
  destruct d as [| b d'].
  - rewrite firstn_nil, skipn_nil. cbn [is_empty]. unfold ret.
    exists []. repeat split; try constructor.
    simpl. rewrite app_nil_r. reflexivity.
  - pose proof (firstn_skipn (Z.to_nat n) (b :: d')) as Hsplit.
    pose proof (firstn_le_length (Z.to_nat n) (b :: d')) as Hle.
    pose proof (length_skipn (Z.to_nat n) (b :: d')) as Hrest.
    destruct (Z.to_nat n) as [| m] eqn:Hm; [lia |].
    rewrite <- Hm in *. clear m Hm.
    remember (firstn (Z.to_nat n) (b :: d')) as chunk eqn:Hchunk.
    remember (skipn (Z.to_nat n) (b :: d')) as rest eqn:Hr.
    assert (Hne : chunk <> []).
    { subst chunk. destruct (Z.to_nat n) eqn:E; [lia | discriminate]. }
    assert (Henc : encodable chunk).
    { apply chunk_encodable with (n := n); [exact Hb | unfold len; lia]. }
    destruct chunk as [| c0 chunk']; [congruence |].
    cbn [is_empty]. unfold bind at 1, lift.
    rewrite (add_chunk_frame Henc).
    unfold bind, dst_write, ret. cbn [is_empty frame raw_frame
      big_endian_uint app src dst].
    destruct (IH (length rest)) with (d := rest)
      (out := out ++ frame (c0 :: chunk')) as (ds & Hcat & Hall & Hsz & Hrun).
    { subst k. rewrite Hrest. cbn [length]. lia. }
    { reflexivity. }
    exists ((c0 :: chunk') :: ds). repeat split.
    + simpl. rewrite Hcat. exact Hsplit.
    + constructor; [split; assumption | exact Hall].
    + constructor; [unfold len; lia | exact Hsz].
    + unfold frame, raw_frame, big_endian_uint in Hrun.
      cbn [app] in Hrun. rewrite Hrun. f_equal. f_equal.
      unfold frames. cbn [map concat]. rewrite <- !app_assoc.
      reflexivity.
Qed.

End Encoding.

(** ** Streams that stop early *)

Section Truncation.
Context {C : Codec}.

Lemma stream_decompress_after_first_field (ulen : Z) (out : bytes) :
  0 < ulen <= UINT_MAX ->
  stream_decompress (Files (big_endian_uint ulen) out)
  = (Raise (UncompressError Failed_to_read_compressed_chunk_length),
     Files [] out).
Proof.
  intros Hu. rewrite stream_decompress_turns.
  unfold stream_decompress_turn, bind at 1.
  rewrite <- (app_nil_r (big_endian_uint ulen)).
  rewrite read_int_field by lia.
  destruct (ulen =? 0) eqn:Hz; [comparisons; lia |]. reflexivity.
Qed.

Lemma stream_decompress_in_second_field
  (ulen : Z) (b : byte) (tail out : bytes) :
  0 < ulen <= UINT_MAX -> (length tail < 3)%nat ->
  stream_decompress (Files (big_endian_uint ulen ++ b :: tail) out)
  = (Raise struct_error, Files [] out).
Proof.
  intros Hu Hl. rewrite stream_decompress_turns.
  unfold stream_decompress_turn, bind at 1.
  rewrite read_int_field by lia.
  destruct (ulen =? 0) eqn:Hz; [comparisons; lia |].
  unfold bind at 1. rewrite read_int_short by exact Hl. reflexivity.
Qed.

Lemma stream_decompress_short_body
  (ulen clen : Z) (partial out : bytes) :
  0 < ulen <= UINT_MAX -> 0 <= clen <= UINT_MAX -> len partial < clen ->
  stream_decompress
    (Files (big_endian_uint ulen ++ big_endian_uint clen ++ partial) out)
  = (Raise (UncompressError Failed_to_read_compressed_chunk), Files [] out).
Proof.
  intros Hu Hc Hp. pose proof (len_nonneg partial) as H0.
  rewrite stream_decompress_turns.
  unfold stream_decompress_turn, bind at 1.
  rewrite read_int_field by lia.
  destruct (ulen =? 0) eqn:Hz; [comparisons; lia |].
  unfold bind at 1. rewrite read_int_field by lia.
  destruct (clen =? 0) eqn:Hz'; [comparisons; lia |].
  unfold bind at 1, src_read. cbn [src dst].
  rewrite read_short by exact Hp.
  destruct (len partial =? clen) eqn:He; [comparisons; lia |].
  reflexivity.
Qed.

End Truncation.

Lemma stream_decompress_cut_frame
  (C : Codec) (L : CodecLaws C) (d out : bytes) (k : nat) :
  encodable d -> d <> [] -> (0 < k < length (frame d))%nat ->
  stream_decompress (Files (firstn k (frame d)) out)
  = (Raise (truncation_error k), Files [] out).
Proof.
  intros [Hd Hc] Hne Hk.
  assert (Hpos : 0 < len d).
  { pose proof (len_nonneg d). destruct (Z.eq_dec (len d) 0) as [Hz |];
      [apply len_nil_iff in Hz; contradiction | lia]. }
  pose proof (compress_len_pos d) as Hcpos.
  pose proof (frame_length d) as Hfl. unfold len at 1 in Hfl.
  destruct (le_lt_dec 8 k) as [H8 | H8].
  - (* the cut is in the body *)
    replace (truncation_error k)
      with (UncompressError Failed_to_read_compressed_chunk).
    2:{ unfold truncation_error.
        destruct (Nat.ltb_spec k 4); [lia |].
        destruct (Nat.eqb_spec k 4); [lia |].
        destruct (Nat.ltb_spec k 8); [lia | reflexivity]. }
    unfold frame, raw_frame, big_endian_uint.
    replace k with (S (S (S (S (S (S (S (S (k - 8)))))))))%nat by lia.
    cbn [firstn app].
    apply (@stream_decompress_short_body C (len d) (len (compress d))
             (firstn (k - 8) (compress d)) out); try lia.
    unfold len in *. rewrite length_firstn. lia.
  - unfold frame, raw_frame, big_endian_uint.
    destruct k as [| [| [| [| [| [| [| [| k]]]]]]]]; try lia;
      cbn [firstn app truncation_error Nat.ltb Nat.leb Nat.eqb].
    + apply stream_decompress_short_field. simpl. lia.
    + apply stream_decompress_short_field. simpl. lia.
    + apply stream_decompress_short_field. simpl. lia.
    + apply (@stream_decompress_after_first_field C (len d) out). lia.
    + apply (@stream_decompress_in_second_field C (len d) _ [] out);
        [lia | simpl; lia].
    + apply (@stream_decompress_in_second_field C (len d) _ [_] out);
        [lia | simpl; lia].
    + apply (@stream_decompress_in_second_field C (len d) _ [_; _] out);
        [lia | simpl; lia].
Qed.

(** * The stated properties *)

(** ** Compressing a stream *)

#[warnings="-inexact-float"] Lemma default_read_size :
  hadoop_snappy_max_input_size None = Ok 218421.33333333334%float.
Proof. vm_compute. reflexivity. Qed.

(** With a [float] for a size the first [src.read] raises, and nothing
    was read or written. *)
Lemma stream_compress_loop_float (C : Codec) (x : float) (f : files) :
  stream_compress_loop (Float x) f = (Raise TypeError, f).
Proof. rewrite stream_compress_loop_turns. reflexivity. Qed.

(** C1 fails on the code. With the default block size the read size is
    the float 218421.33333333334, the first [src.read] raises
    [TypeError], and [stream_compress] ends there, whatever the source,
    the empty one included: nothing is read and nothing is written, so
    there is nothing for [stream_decompress] to give back. *)
Theorem stream_compress_raises_type_error (C : Codec) (d out : bytes) :
  stream_compress None (Files d out) = (Raise TypeError, Files d out).
Proof.
  unfold stream_compress. rewrite default_read_size.
  apply stream_compress_loop_float.
Qed.

(** ** Truncation *)

(** C4, as the code has it. When the stream ends strictly inside the
    frame of a chunk that is not empty, [stream_decompress] raises and
    writes nothing: [struct.error] when the cut is inside a length field,
    [UncompressError] when it is between the two fields or inside the
    body. In particular, once both length fields were read, fewer body
    bytes than the compressed length declares raise [UncompressError]. *)
Theorem truncated_frame_raises
  (C : Codec) (L : CodecLaws C) (d e out : bytes) (k : nat) :
  StreamCompressor.add_chunk d = Ok e -> d <> [] ->
  (0 < k < length e)%nat ->
  stream_decompress (Files (firstn k e) out)
  = (Raise (truncation_error k), Files [] out)
  /\ (forall (ulen clen : Z) (partial : bytes),
        0 < ulen <= UINT_MAX -> 0 <= clen <= UINT_MAX ->
        len partial < clen ->
        stream_decompress
          (Files (big_endian_uint ulen ++ big_endian_uint clen ++ partial)
             out)
        = (Raise (UncompressError Failed_to_read_compressed_chunk),
           Files [] out)).
Proof.
  intros He Hne Hk. apply add_chunk_Ok in He. destruct He as [-> Henc].
  split.
  - apply stream_decompress_cut_frame; assumption.
  - intros ulen clen partial Hu Hc Hp.
    apply stream_decompress_short_body; assumption.
Qed.

Lemma truncated_frame_raises_witness :
  stream_decompress (C := TestCodecs.stored)
    (Files [x00; x00; x00; x02; x00; x00; x00; x03; x00; x68] [])
  = (Raise (UncompressError Failed_to_read_compressed_chunk), Files [] []).
Proof.
  destruct (@truncated_frame_raises TestCodecs.stored stored_laws
              [x68; x69]
              [x00; x00; x00; x02; x00; x00; x00; x03; x00; x68; x69]
              [] 10%nat) as [H _].
  - reflexivity.
  - discriminate.
  - simpl. lia.
  - exact H.
Defined.

(** C4 as stated fails on the frame of an empty chunk: cut after its
    first field, the stream is taken as ended and nothing is raised. *)
Lemma truncated_empty_chunk_frame_returns :
  StreamCompressor.add_chunk (C := TestCodecs.stored) []
  = Ok [x00; x00; x00; x00; x00; x00; x00; x01; x00]
  /\ stream_decompress (C := TestCodecs.stored)
       (Files [x00; x00; x00; x00; x00; x00] [])
     = (Ok tt, Files [x00; x00] []).
Proof. split; reflexivity. Qed.

(** ** Length check *)

(** C5. Once both length fields and a complete body were read and the
    codec decoded the body, the turn writes the decoded bytes exactly when
    their length is the declared uncompressed length; when it is not,
    [stream_decompress] raises and the sink is as it was before the
    frame. *)
Theorem length_mismatch_check
  (C : Codec) (ulen : Z) (body rest out u : bytes) :
  0 < ulen <= UINT_MAX -> 0 < len body <= UINT_MAX ->
  uncompress body = Ok u ->
  (stream_decompress_turn (Files (raw_frame ulen body ++ rest) out)
   = (Ok true, Files rest (out ++ u))
   <-> len u = ulen)
  /\ (len u = ulen ->
      stream_decompress (Files (raw_frame ulen body ++ rest) out)
      = stream_decompress (Files rest (out ++ u)))
  /\ (len u <> ulen ->
      stream_decompress (Files (raw_frame ulen body ++ rest) out)
      = (Raise (UncompressError (Specified_length_differs ulen (len u))),
         Files rest out)).
Proof.
  intros Hu Hb Hdec.
  pose proof (@stream_decompress_turn_raw_frame C ulen body rest out Hu Hb)
    as Hturn.
  rewrite Hdec in Hturn.
  repeat split.
  - intros H. rewrite H in Hturn.
    destruct (len u =? ulen) eqn:E; [comparisons; exact E | discriminate].
  - intros H. rewrite Hturn. apply Z.eqb_eq in H. rewrite H. reflexivity.
  - intros H. rewrite stream_decompress_turns, Hturn.
    apply Z.eqb_eq in H. rewrite H. reflexivity.
  - intros H. rewrite stream_decompress_turns, Hturn.
    apply Z.eqb_neq in H. rewrite H. reflexivity.
Qed.

Lemma length_mismatch_check_witness :
  stream_decompress (C := TestCodecs.stored)
    (Files (raw_frame 5 [x00; x68; x69] ++ []) [])
  = (Raise (UncompressError (Specified_length_differs 5 2)), Files [] []).
Proof.
  destruct (@length_mismatch_check TestCodecs.stored 5 [x00; x68; x69]
              [] [] [x68; x69]) as (_ & _ & H).
  - unfold UINT_MAX. lia.
  - unfold UINT_MAX, len. simpl. lia.
  - reflexivity.
  - apply H. unfold len. simpl. lia.
Defined.

(** ** Frames in a row *)

(** C6, as the code has it. Decoding the frames of [d1], [d2] (and
    [d3]) in a row with [stream_decompress] writes the chunks up to the
    first empty one: [d1 + d2] when [d1] is not empty, [d1 + d2 + d3]
    when neither [d1] nor [d2] is. *)
Theorem concatenated_frames_up_to_empty_chunk
  (C : Codec) (L : CodecLaws C) (d1 d2 d3 e1 e2 e3 : bytes) :
  StreamCompressor.add_chunk d1 = Ok e1 ->
  StreamCompressor.add_chunk d2 = Ok e2 ->
  StreamCompressor.add_chunk d3 = Ok e3 ->
  (exists left : bytes,
      stream_decompress (Files (e1 ++ e2) [])
      = (Ok tt, Files left (concat (leading_nonempty [d1; d2]))))
  /\ (exists left : bytes,
         stream_decompress (Files (e1 ++ e2 ++ e3) [])
         = (Ok tt, Files left (concat (leading_nonempty [d1; d2; d3]))))
  /\ (d1 <> [] -> concat (leading_nonempty [d1; d2]) = d1 ++ d2)
  /\ (d1 <> [] -> d2 <> [] ->
      concat (leading_nonempty [d1; d2; d3]) = d1 ++ d2 ++ d3).
Proof.
  intros H1 H2 H3.
  apply add_chunk_Ok in H1, H2, H3.
  destruct H1 as [-> E1], H2 as [-> E2], H3 as [-> E3].
  repeat split.
  - destruct (@stream_decompress_leading C L [d1; d2] [])
      as [left Hl];
      [repeat (apply Forall_cons; [assumption |]); apply Forall_nil |].
    exists left. unfold frames in Hl. simpl in Hl.
    rewrite app_nil_r in Hl. exact Hl.
  - destruct (@stream_decompress_leading C L [d1; d2; d3] [])
      as [left Hl];
      [repeat (apply Forall_cons; [assumption |]); apply Forall_nil |].
    exists left. unfold frames in Hl. simpl in Hl.
    rewrite app_nil_r in Hl. exact Hl.
  - intros N1. destruct d1; [congruence |].
    destruct d2; simpl; rewrite ?app_nil_r; reflexivity.
  - intros N1 N2. destruct d1; [congruence |]. destruct d2; [congruence |].
    destruct d3; simpl; rewrite ?app_nil_r; reflexivity.
Qed.

Lemma concatenated_frames_up_to_empty_chunk_witness :
  exists left : bytes,
    stream_decompress (C := TestCodecs.stored)
      (Files ([x00; x00; x00; x01; x00; x00; x00; x02; x00; x68]
              ++ [x00; x00; x00; x01; x00; x00; x00; x02; x00; x69]) [])
    = (Ok tt, Files left (concat (leading_nonempty [[x68]; [x69]]))).
Proof.
  destruct (@concatenated_frames_up_to_empty_chunk TestCodecs.stored
              stored_laws [x68] [x69] []
              [x00; x00; x00; x01; x00; x00; x00; x02; x00; x68]
              [x00; x00; x00; x01; x00; x00; x00; x02; x00; x69]
              [x00; x00; x00; x00; x00; x00; x00; x01; x00])
    as (H & _); try reflexivity.
  exact H.
Defined.

(** C6 as stated fails when the first chunk is empty: its frame ends the
    decoding, and the chunk after it is not written. *)
Lemma empty_chunk_hides_the_next :
  StreamCompressor.add_chunk (C := TestCodecs.stored) []
  = Ok [x00; x00; x00; x00; x00; x00; x00; x01; x00]
  /\ StreamCompressor.add_chunk (C := TestCodecs.stored) [x69]
     = Ok [x00; x00; x00; x01; x00; x00; x00; x02; x00; x69]
  /\ dst (snd (stream_decompress (C := TestCodecs.stored)
                 (Files ([x00; x00; x00; x00; x00; x00; x00; x01; x00]
                         ++ [x00; x00; x00; x01; x00; x00; x00; x02; x00;
                             x69]) [])))
     <> [] ++ [x69].
Proof. repeat split; try reflexivity. vm_compute. discriminate. Qed.

(** ** The zero length field *)

(** C8. [stream_decompress] takes a zero uncompressed-length field as
    the end of the stream: it returns without reading past the field and
    without writing; so after the frame of an empty chunk no later frame
    is decoded. *)
Theorem zero_length_field_terminates
  (C : Codec) (rest out : bytes) (ds : list bytes) :
  stream_decompress (Files (big_endian_uint 0 ++ rest) out)
  = (Ok tt, Files rest out)
  /\ stream_decompress (Files (frames ([] :: ds)) out)
     = (Ok tt, Files (skipn 4 (frames ([] :: ds))) out).
Proof.
  split; [apply stream_decompress_zero_field |].
  unfold frames. cbn [map concat]. unfold frame at 1, raw_frame.
  rewrite <- !app_assoc. change (len []) with 0 at 1.
  rewrite stream_decompress_zero_field. reflexivity.
Qed.

(** ** The end of the stream *)

(** C9, as the code has it. After complete frames of chunks that are not
    empty, a stream that has no byte left ends the decoding normally;
    one that has one to three bytes left raises [struct.error], the
    chunks decoded so far being written. *)
Theorem stream_end_at_frame_boundary
  (C : Codec) (L : CodecLaws C) (ds : list bytes) (tail out : bytes) :
  Forall (fun d => encodable d /\ d <> []) ds ->
  stream_decompress (Files (frames ds) out)
  = (Ok tt, Files [] (out ++ concat ds))
  /\ ((0 < length tail < 4)%nat ->
      stream_decompress (Files (frames ds ++ tail) out)
      = (Raise struct_error, Files [] (out ++ concat ds))).
Proof.
  intros Hds. split.
  - rewrite <- (app_nil_r (frames ds)).
    rewrite stream_decompress_frames by exact Hds.
    apply stream_decompress_at_end.
  - intros Ht. rewrite stream_decompress_frames by exact Hds.
    destruct tail as [| b tail]; [simpl in Ht; lia |].
    apply stream_decompress_short_field. simpl in Ht. lia.
Qed.

Lemma stream_end_at_frame_boundary_witness :
  stream_decompress (C := TestCodecs.stored)
    (Files (frames (C := TestCodecs.stored) [[x68; x69]]) [])
  = (Ok tt, Files [] ([] ++ concat [[x68; x69]])).
Proof.
  destruct (@stream_end_at_frame_boundary TestCodecs.stored stored_laws
              [[x68; x69]] [] []) as [H _].
  - repeat constructor; try discriminate;
      unfold UINT_MAX; apply Z.leb_le; reflexivity.
  - exact H.
Defined.

(** C9 as stated fails on a short final field: one byte after a complete
    frame raises [struct.error]. *)
Lemma short_final_field_raises :
  StreamCompressor.add_chunk (C := TestCodecs.stored) [x68]
  = Ok [x00; x00; x00; x01; x00; x00; x00; x02; x00; x68]
  /\ stream_decompress (C := TestCodecs.stored)
       (Files ([x00; x00; x00; x01; x00; x00; x00; x02; x00; x68]
               ++ [x00]) [])
     = (Raise struct_error, Files [] [x68]).
Proof. split; reflexivity. Qed.

(** ** Sizing *)








(** ** Block sizes that are not positive *)

Lemma max_input_size_small (b : Z) :
  PythonNumbers.is_small b = true ->
  exists x : float,
    hadoop_snappy_max_input_size (Some b) = Ok x.
Proof.
  intros Hb. unfold hadoop_snappy_max_input_size.
  destruct (b =? 0); [eexists; vm_compute; reflexivity |].
  unfold PythonNumbers.int_true_divide, PythonNumbers.float_add_int,
    PythonNumbers.int_sub_float, PythonNumbers.float_of_int.
  rewrite Hb.
  change (PythonNumbers.is_small 6) with true.
  change (PythonNumbers.is_small 32) with true.
  cbn [andb]. eexists. reflexivity.
Qed.

(** C10, as the code has it. [hadoop_snappy_max_input_size] checks
    nothing: for a block size that is not positive (and above [-2^53])
    it raises nothing and returns a float, for [0] the one it returns
    for the default block. *)
Theorem nonpositive_block_size_returns_a_float (b : Z) :
  - 9007199254740992 < b <= 0 ->
  (exists x : float, hadoop_snappy_max_input_size (Some b) = Ok x)
  /\ (b = 0 ->
      hadoop_snappy_max_input_size (Some b)
      = hadoop_snappy_max_input_size None).
Proof.
  intros Hb. split.
  - apply max_input_size_small. unfold PythonNumbers.is_small.
    apply Z.ltb_lt. lia.
  - intros ->. reflexivity.
Qed.

Lemma nonpositive_block_size_returns_a_float_witness :
  exists x : float, hadoop_snappy_max_input_size (Some (-6)) = Ok x.
Proof.
  destruct (@nonpositive_block_size_returns_a_float (-6)) as [H _];
    [lia | exact H].
Defined.

(** C10 as stated fails: the block sizes [0] and [-6] give a float. *)
#[warnings="-inexact-float"] Lemma nonpositive_block_size_gives_a_float :
  hadoop_snappy_max_input_size (Some 0) = Ok 218421.33333333334%float
  /\ hadoop_snappy_max_input_size (Some (-6)) = Ok (-37)%float.
Proof. split; vm_compute; reflexivity. Qed.

(** ** The incremental decoder *)

Section Incremental.
Import StreamDecompressor.
Context {C : Codec}.

Lemma drain_turns (d : decoder) :
  drain d =
  match advance d with
  | None => Ok ([], d)
  | Some (Raise e) => Raise e
  | Some (Ok (out, d')) =>
      match drain d' with
      | Ok (out', d'') => Ok (out ++ out', d'')
      | Raise e => Raise e
      end
  end.
Proof.
  rewrite drain_equation_1.
  destruct (inspect (advance d)) as [[[[out d'] | e] |] H];
    simpl; rewrite H; reflexivity.
Qed.

Lemma firstn_app_enough (n : nat) (l more : bytes) :
  (n <= length l)%nat -> firstn n (l ++ more) = firstn n l.
Proof.
  intros Hn. rewrite firstn_app.
  replace (n - length l)%nat with 0%nat by lia.
  rewrite firstn_O, app_nil_r. reflexivity.
Qed.

Lemma skipn_app_enough (n : nat) (l more : bytes) :
  (n <= length l)%nat -> skipn n (l ++ more) = skipn n l ++ more.
Proof.
  intros Hn. rewrite skipn_app.
  replace (n - length l)%nat with 0%nat by lia.
  rewrite skipn_O. reflexivity.
Qed.

(** A transition the buffer allows is the same with more bytes behind. *)
Lemma advance_extend (d : decoder) (more : bytes)
  (r : result (bytes * decoder)) :
  advance d = Some r ->
  advance (extend d more) =
  Some match r with
       | Ok (out, d') => Ok (out, extend d' more)
       | Raise e => Raise e
       end.
Proof.
  destruct d as [buf cur]. unfold advance, extend. cbn [buffer expects].
  pose proof (len_nonneg more) as Hm.
  destruct cur as [| ulen | ulen clen].
  - destruct (4 <=? len buf) eqn:Hl; [| discriminate].
    comparisons. rewrite len_app.
    destruct (4 <=? len buf + len more) eqn:Hl'; [| comparisons; lia].
    unfold len in Hl.
    rewrite firstn_app_enough, skipn_app_enough by lia.
    destruct (struct_unpack_I (firstn 4 buf)); intros [= <-]; reflexivity.
  - destruct (4 <=? len buf) eqn:Hl; [| discriminate].
    comparisons. rewrite len_app.
    destruct (4 <=? len buf + len more) eqn:Hl'; [| comparisons; lia].
    unfold len in Hl.
    rewrite firstn_app_enough, skipn_app_enough by lia.
    destruct (struct_unpack_I (firstn 4 buf)); intros [= <-]; reflexivity.
  - destruct (clen <=? len buf) eqn:Hl; [| discriminate].
    comparisons. rewrite len_app.
    destruct (clen <=? len buf + len more) eqn:Hl'; [| comparisons; lia].
    unfold len in Hl.
    rewrite firstn_app_enough, skipn_app_enough by lia.
    destruct (uncompress (firstn (Z.to_nat clen) buf)) as [o | e];
      [| intros [= <-]; reflexivity].
    destruct (len o =? ulen); intros [= <-]; reflexivity.
Qed.

(** Draining a buffer with more bytes behind it is draining the buffer,
    then draining what it left with the bytes behind. *)
Lemma drain_extend (more : bytes) (d : decoder) :
  drain (extend d more) = then_drain more (drain d).
Proof.
  remember (pending d) as k eqn:Hk. revert d Hk.
  induction k as [k IH] using lt_wf_ind. intros d Hk.
  rewrite (drain_turns d).
  destruct (advance d) as [[[out d'] | e] |] eqn:Hadv.
  - rewrite (drain_turns (extend d more)).
    rewrite (@advance_extend d more _ Hadv).
    rewrite (IH (pending d')) with (d := d');
      [| subst k; exact (@advance_consumes C d d' out Hadv) | reflexivity].
    destruct (drain d') as [[o1 d1] | e1]; cbn [then_drain];
      [| reflexivity].
    destruct (drain (extend d1 more)) as [[o2 d2] | e2];
      [rewrite app_assoc |]; reflexivity.
  - rewrite (drain_turns (extend d more)).
    rewrite (@advance_extend d more _ Hadv). reflexivity.
  - cbn [then_drain].
    destruct (drain (extend d more)) as [[o2 d2] | e2]; reflexivity.
Qed.

(** What a call returns leaves a decoder that waits for more bytes. *)
Lemma drain_waits (d d' : decoder) (out : bytes) :
  drain d = Ok (out, d') -> advance d' = None.
Proof.
  remember (pending d) as k eqn:Hk. revert d Hk out.
  induction k as [k IH] using lt_wf_ind. intros d Hk out.
  rewrite (drain_turns d).
  destruct (advance d) as [[[o d1] | e] |] eqn:Hadv; [| discriminate |].
  - destruct (drain d1) as [[o1 d2] | e1] eqn:Hd; [| discriminate].
    intros [= _ <-].
    apply (IH (pending d1)) with (d := d1) (out := o1);
      [subst k; exact (@advance_consumes C d d1 o Hadv) | reflexivity |
       exact Hd].
  - intros [= _ <-]. exact Hadv.
Qed.

Lemma drain_waiting (d : decoder) :
  advance d = None -> drain d = Ok ([], d).
Proof. intros H. rewrite drain_turns, H. reflexivity. Qed.

Lemma extend_nil (d : decoder) : extend d [] = d.
Proof. destruct d. unfold extend. simpl. rewrite app_nil_r. reflexivity. Qed.

Lemma extend_extend (d : decoder) (p q : bytes) :
  extend (extend d p) q = extend d (p ++ q).
Proof. unfold extend. simpl. rewrite app_assoc. reflexivity. Qed.

(** Feeding pieces to a decoder that waits is one call on all of them. *)
Lemma feed_concat (pieces : list bytes) (d : decoder) :
  advance d = None -> feed pieces d = drain (extend d (concat pieces)).
Proof.
  revert d. induction pieces as [| p ps IH]; intros d Hw.
  - simpl. rewrite extend_nil, drain_waiting by exact Hw. reflexivity.
  - cbn [feed concat]. unfold decompress. fold (extend d p).
    rewrite <- extend_extend, (drain_extend (concat ps) (extend d p)).
    destruct (drain (extend d p)) as [[o1 d1] | e1] eqn:Hd;
      cbn [then_drain]; [| reflexivity].
    rewrite IH by exact (@drain_waits (extend d p) d1 o1 Hd). reflexivity.
Qed.

Context {L : CodecLaws C}.

Lemma drain_frame (d : bytes) :
  encodable d ->
  drain (Decoder (frame d) AwaitUncompressedLen) = Ok (d, create).
Proof.
  intros [Hd Hc]. pose proof (len_nonneg d) as H0.
  pose proof (len_nonneg (compress d)) as H0'.
  rewrite drain_turns. unfold advance at 1. cbn [buffer expects].
  rewrite frame_length.
  destruct (4 <=? 8 + len (compress d)) eqn:E; [| comparisons; lia].
  unfold frame, raw_frame.
  rewrite firstn_app_enough, skipn_app_enough by (simpl; lia).
  change (firstn 4 (big_endian_uint (len d))) with (big_endian_uint (len d)).
  change (skipn 4 (big_endian_uint (len d))) with (@nil byte).
  rewrite struct_unpack_big_endian_uint by lia. cbn [app].
  rewrite drain_turns. unfold advance at 1. cbn [buffer expects].
  rewrite len_app. change (len (big_endian_uint (len (compress d)))) with 4.
  destruct (4 <=? 4 + len (compress d)) eqn:E'; [| comparisons; lia].
  rewrite firstn_app_enough, skipn_app_enough by (simpl; lia).
  change (firstn 4 (big_endian_uint (len (compress d))))
    with (big_endian_uint (len (compress d))).
  change (skipn 4 (big_endian_uint (len (compress d)))) with (@nil byte).
  rewrite struct_unpack_big_endian_uint by lia. cbn [app].
  rewrite drain_turns. unfold advance at 1. cbn [buffer expects].
  rewrite Z.leb_refl.
  replace (Z.to_nat (len (compress d))) with (length (compress d))
    by (unfold len; rewrite Nat2Z.id; reflexivity).
  rewrite firstn_all, skipn_all, uncompress_compress, Z.eqb_refl.
  rewrite drain_turns. cbn. rewrite ?app_nil_r. reflexivity.
Qed.

Lemma drain_frames (ds : list bytes) :
  Forall encodable ds ->
  drain (Decoder (frames ds) AwaitUncompressedLen) = Ok (concat ds, create).
Proof.
  induction 1 as [| d ds Hd _ IH].
  - rewrite drain_turns. reflexivity.
  - unfold frames. cbn [map concat]. fold (frames ds).
    change (Decoder (frame d ++ frames ds) AwaitUncompressedLen)
      with (extend (Decoder (frame d) AwaitUncompressedLen) (frames ds)).
    rewrite drain_extend, drain_frame by exact Hd.
    cbn [then_drain]. unfold extend. cbn [buffer expects app create].
    rewrite IH. reflexivity.
Qed.

Lemma feed_frames (ds pieces : list bytes) :
  Forall encodable ds -> concat pieces = frames ds ->
  feed pieces create = Ok (concat ds, create).
Proof.
  intros Hds Hp. rewrite feed_concat by reflexivity.
  unfold extend. cbn [buffer expects app create]. rewrite Hp.
  apply drain_frames. exact Hds.
Qed.

End Incremental.

Lemma add_chunks_frames (C : Codec) (ds es : list bytes) :
  Forall2 (fun d e => StreamCompressor.add_chunk d = Ok e) ds es ->
  concat es = frames ds /\ Forall encodable ds.
Proof.
  induction 1 as [| d e ds es He _ [IHc IHf]].
  - split; [reflexivity | constructor].
  - apply add_chunk_Ok in He. destruct He as [-> He].
    split; [| constructor; assumption].
    unfold frames in *. simpl. rewrite IHc. reflexivity.
Qed.

(** C3. Modelled from the spec, the incremental decoder does not depend
    on how its input is cut: whatever the pieces, if put end to end they
    are the frames that [add_chunk] returned for the chunks [ds], or the
    bytes that the loop of [stream_compress] writes for [d] when it reads
    with an integer size [n], then feeding them in order to a new decoder
    returns, call after call, the chunks (or [d]) and leaves the decoder
    as new. *)
Theorem fragmentation_invariance
  (C : Codec) (L : CodecLaws C) (ds es pieces : list bytes) (d e : bytes)
  (n : Z) :
  (Forall2 (fun d e => StreamCompressor.add_chunk d = Ok e) ds es ->
   concat pieces = concat es ->
   StreamDecompressor.feed pieces StreamDecompressor.create
   = Ok (concat ds, StreamDecompressor.create))
  /\ (0 < n -> 32 + n + n / 6 <= UINT_MAX ->
      stream_compress_loop (Int n) (Files d []) = (Ok tt, Files [] e) ->
      concat pieces = e ->
      StreamDecompressor.feed pieces StreamDecompressor.create
      = Ok (d, StreamDecompressor.create)).
Proof.
  split.
  - intros Hes Hp. apply add_chunks_frames in Hes.
    destruct Hes as [Hcat Henc].
    apply feed_frames; [exact Henc | congruence].
  - intros Hn Hb.
    destruct (@stream_compress_loop_frames C L n Hn Hb d [])
      as (cs & Hcat & Hall & _ & Hrun).
    rewrite Hrun. intros [= <-] Hp. rewrite <- Hcat.
    apply feed_frames; [| exact Hp].
    apply Forall_impl with (2 := Hall). intros c [Hc _]. exact Hc.
Qed.

Lemma fragmentation_invariance_witness :
  StreamDecompressor.feed (C := TestCodecs.stored)
    [[x00]; [x00; x00]; []; [x02; x00; x00; x00; x03; x00]; [x68];
     [x69; x00; x00; x00; x01; x00; x00]; [x00; x02; x00; x6a]]
    StreamDecompressor.create
  = Ok (concat [[x68; x69]; [x6a]], StreamDecompressor.create).
Proof.
  destruct (@fragmentation_invariance TestCodecs.stored stored_laws
              [[x68; x69]; [x6a]]
              [[x00; x00; x00; x02; x00; x00; x00; x03; x00; x68; x69];
               [x00; x00; x00; x01; x00; x00; x00; x02; x00; x6a]]
              [[x00]; [x00; x00]; []; [x02; x00; x00; x00; x03; x00];
               [x68]; [x69; x00; x00; x00; x01; x00; x00];
               [x00; x02; x00; x6a]]
              [] [] 0) as [H _].
  apply H.
  - repeat constructor.
  - reflexivity.
Defined.

(** * More of the module *)

(** ** Length fields, both ways *)

Lemma byte_of_Z_of_byte (b : byte) : byte_of_Z (Z_of_byte b) = b.
Proof.
  unfold byte_of_Z, Z_of_byte.
  pose proof (Byte.to_N_bounded b) as Hb.
  rewrite Z.mod_small by lia. rewrite N2Z.id, Byte.of_to_N. reflexivity.
Qed.

Lemma byte_of_Z_mod (z : Z) (b : byte) :
  z mod 256 = Z_of_byte b -> byte_of_Z z = b.
Proof.
  intros H. rewrite <- (byte_of_Z_of_byte b), <- H.
  unfold byte_of_Z. rewrite Z.mod_mod by lia. reflexivity.
Qed.

(** Four bytes unpack to a number that packs to the same four bytes. *)
Lemma struct_unpack_I_Ok (data : bytes) (n : Z) :
  struct_unpack_I data = Ok n ->
  0 <= n <= UINT_MAX /\ data = big_endian_uint n.
Proof.
  destruct data as [| b0 [| b1 [| b2 [| b3 [| b4 data]]]]];
    try discriminate.
  cbn [struct_unpack_I]. intros [= <-].
  pose proof (Z_of_byte_range b0). pose proof (Z_of_byte_range b1).
  pose proof (Z_of_byte_range b2). pose proof (Z_of_byte_range b3).
  split; [unfold UINT_MAX; lia |].
  unfold big_endian_uint.
  f_equal; [| f_equal; [| f_equal; [| f_equal]]];
    symmetry; apply byte_of_Z_mod; Z.div_mod_to_equations; lia.
Qed.

(** What [prepare_num] returned, [read_int] reads back, and leaves what
    follows it unread. *)
Theorem read_int_after_prepare_num (num : Z) (h rest out : bytes) :
  prepare_num num = Ok h ->
  read_int (Files (h ++ rest) out) = (Ok num, Files rest out).
Proof.
  intros Hp. apply prepare_num_Ok in Hp. destruct Hp as [Hr ->].
  apply read_int_field. exact Hr.
Qed.

Lemma read_int_after_prepare_num_witness :
  read_int (Files ([x00; x00; x01; x02] ++ [x68]) [])
  = (Ok 258, Files [x68] []).
Proof.
  apply (@read_int_after_prepare_num 258 [x00; x00; x01; x02] [x68] []).
  reflexivity.
Defined.

(** All that [read_int] does. It never touches the sink. It returns [0]
    at the end of the source, raises [struct.error] when one to three
    bytes are left (and has consumed them), and with four bytes or more
    it consumes four and returns a number that [prepare_num] packs into
    those four bytes. *)
Theorem read_int_cases (f f' : files) (r : result Z) :
  read_int f = (r, f') ->
  dst f' = dst f
  /\ match r with
     | Ok n =>
         (src f = [] /\ n = 0 /\ src f' = [])
         \/ (src f = big_endian_uint n ++ src f'
             /\ prepare_num n = Ok (big_endian_uint n))
     | Raise e =>
         e = struct_error /\ (0 < length (src f) < 4)%nat /\ src f' = []
     end.
Proof.
  destruct f as [s out]. unfold read_int, bind, src_read, read.
  cbn [src dst Z.ltb Z.compare].
  destruct s as [| b0 [| b1 [| b2 [| b3 s]]]];
    cbn [Z.to_nat Pos.to_nat Pos.iter_op Nat.add firstn skipn is_empty];
    unfold ret, lift; cbn [struct_unpack_I].
  - intros [= <- <-]. cbn [src dst]. split; [reflexivity |].
    left. repeat split.
  - intros [= <- <-]. cbn [src dst length]. repeat split; lia.
  - intros [= <- <-]. cbn [src dst length]. repeat split; lia.
  - intros [= <- <-]. cbn [src dst length]. repeat split; lia.
  - intros [= <- <-]. cbn [src dst]. split; [reflexivity |]. right.
    destruct (@struct_unpack_I_Ok [b0; b1; b2; b3] _ eq_refl) as [Hr Hd].
    split.
    + change (b0 :: b1 :: b2 :: b3 :: s) with ([b0; b1; b2; b3] ++ s).
      rewrite Hd at 1. reflexivity.
    + apply prepare_num_in_range. exact Hr.
Qed.

Lemma read_int_cases_witness :
  dst (Files [] [x68]) = dst (Files [x00; x07] [x68])
  /\ struct_error = struct_error
     /\ (0 < length (src (Files [x00; x07] [x68])) < 4)%nat
     /\ src (Files [] [x68]) = [].
Proof.
  exact (@read_int_cases (Files [x00; x07] [x68]) (Files [] [x68])
           (Raise struct_error) eq_refl).
Defined.

(** ** [add_chunk] succeeds or raises [struct.error] *)

(** [add_chunk] returns the frame of the data exactly when both lengths
    fit their fields, and raises [struct.error], nothing else, when one
    does not. *)
Theorem add_chunk_cases (C : Codec) (data : bytes) :
  (encodable data /\ StreamCompressor.add_chunk data = Ok (frame data))
  \/ (~ encodable data
      /\ StreamCompressor.add_chunk data = Raise struct_error).
Proof.
  unfold encodable.
  destruct (Z_le_gt_dec (len data) UINT_MAX) as [Hd | Hd].
  - destruct (Z_le_gt_dec (len (compress data)) UINT_MAX) as [Hc | Hc].
    + left. split; [split; assumption |].
      apply add_chunk_frame. split; assumption.
    + right. split; [lia |]. unfold StreamCompressor.add_chunk.
      rewrite prepare_num_in_range
        by (split; [apply len_nonneg | assumption]).
      rewrite prepare_num_out_of_range by lia. reflexivity.
  - right. split; [lia |]. unfold StreamCompressor.add_chunk.
    rewrite prepare_num_out_of_range by lia. reflexivity.
Qed.

(** ** What the statements do to the two files *)

(** The files [f] with [out] already in the sink before what [f] has. *)
Definition with_sink (out : bytes) (f : files) : files :=
  Files (src f) (out ++ dst f).

(** A statement does not look at what the sink holds: run with more in
    the sink before, it does the same and the sink has that much more. *)
Definition sink_blind {A : Type} (m : io A) : Prop :=
  forall (out : bytes) (f : files),
    m (with_sink out f) = let (r, f') := m f in (r, with_sink out f').

(** From [f] to [f'] the source was only consumed from its front and the
    sink only appended to. *)
Definition onward (f f' : files) : Prop :=
  (exists consumed : bytes, src f = consumed ++ src f')
  /\ (exists written : bytes, dst f' = dst f ++ written).

(** A statement only consumes the source and appends to the sink,
    whether it returns or raises. *)
Definition forward {A : Type} (m : io A) : Prop :=
  forall (f f' : files) (r : result A), m f = (r, f') -> onward f f'.

Section IoFacts.
Context {C : Codec}.

Lemma sink_blind_ret {A : Type} (a : A) : sink_blind (ret a).
Proof. intros out f. reflexivity. Qed.

Lemma sink_blind_raise {A : Type} (e : exn) : sink_blind (@raise A e).
Proof. intros out f. reflexivity. Qed.

Lemma sink_blind_lift {A : Type} (r : result A) : sink_blind (lift r).
Proof. intros out f. reflexivity. Qed.

Lemma sink_blind_bind {A B : Type} (m : io A) (k : A -> io B) :
  sink_blind m -> (forall a : A, sink_blind (k a)) ->
  sink_blind (bind m k).
Proof.
  intros Hm Hk out f. unfold bind. rewrite Hm.
  destruct (m f) as [[a | e] f1]; [apply Hk | reflexivity].
Qed.

Lemma sink_blind_src_read (size : Z) : sink_blind (src_read size).
Proof.
  intros out f. unfold src_read, with_sink. cbn [src dst].
  destruct (read size (src f)); reflexivity.
Qed.

Lemma sink_blind_dst_write (data : bytes) : sink_blind (dst_write data).
Proof.
  intros out f. unfold dst_write, with_sink. cbn [src dst].
  rewrite app_assoc. reflexivity.
Qed.

Lemma sink_blind_read_int : sink_blind read_int.
Proof.
  unfold read_int. apply sink_blind_bind; [apply sink_blind_src_read |].
  intros data. destruct (is_empty data);
    [apply sink_blind_ret | apply sink_blind_lift].
Qed.

Lemma sink_blind_stream_decompress_turn : sink_blind stream_decompress_turn.
Proof.
  unfold stream_decompress_turn.
  apply sink_blind_bind; [apply sink_blind_read_int |]. intros ulen.
  destruct (ulen =? 0); [apply sink_blind_ret |].
  apply sink_blind_bind; [apply sink_blind_read_int |]. intros clen.
  destruct (clen =? 0); [apply sink_blind_raise |].
  apply sink_blind_bind; [apply sink_blind_src_read |]. intros chunk.
  destruct (negb _); [apply sink_blind_raise |].
  apply sink_blind_bind; [apply sink_blind_lift |]. intros u.
  destruct (negb _); [apply sink_blind_raise |].
  apply sink_blind_bind; [apply sink_blind_dst_write |]. intros _.
  apply sink_blind_ret.
Qed.

Lemma sink_blind_src_read_size (size : number) :
  sink_blind (src_read_size size).
Proof.
  destruct size as [n | x];
    [apply sink_blind_src_read | apply sink_blind_raise].
Qed.

Lemma sink_blind_stream_compress_turn (blocksize : number) :
  sink_blind (stream_compress_turn blocksize).
Proof.
  unfold stream_compress_turn.
  apply sink_blind_bind; [apply sink_blind_src_read_size |]. intros buf.
  destruct (is_empty buf); [apply sink_blind_ret |].
  apply sink_blind_bind; [apply sink_blind_lift |]. intros buf'.
  apply sink_blind_bind; [| intros _; apply sink_blind_ret].
  destruct (is_empty buf');
    [apply sink_blind_ret | apply sink_blind_dst_write].
Qed.

Lemma sink_blind_stream_decompress :
  sink_blind (fun f => stream_decompress f).
Proof.
  intros out f. remember (length (src f)) as k eqn:Hk. revert f Hk.
  induction k as [k IH] using lt_wf_ind. intros f Hk.
  rewrite (stream_decompress_turns f).
  rewrite (stream_decompress_turns (with_sink out f)).
  rewrite sink_blind_stream_decompress_turn.
  destruct (stream_decompress_turn f) as [[[|] | e] f1] eqn:Hturn;
    try reflexivity.
  apply (IH (length (src f1))); [| reflexivity].
  subst k. exact (stream_decompress_turn_shrinks _ Hturn).
Qed.

Lemma sink_blind_stream_compress_loop (blocksize : number) :
  sink_blind (fun f => stream_compress_loop blocksize f).
Proof.
  intros out f. remember (length (src f)) as k eqn:Hk. revert f Hk.
  induction k as [k IH] using lt_wf_ind. intros f Hk.
  rewrite (stream_compress_loop_turns blocksize f).
  rewrite (stream_compress_loop_turns blocksize (with_sink out f)).
  rewrite sink_blind_stream_compress_turn.
  destruct (stream_compress_turn blocksize f) as [[[|] | e] f1] eqn:Hturn;
    try reflexivity.
  apply (IH (length (src f1))); [| reflexivity].
  subst k. exact (stream_compress_turn_shrinks _ _ Hturn).
Qed.

Lemma onward_refl (f : files) : onward f f.
Proof.
  split; [exists [] | exists []]; [reflexivity |].
  rewrite app_nil_r. reflexivity.
Qed.

Lemma onward_trans (f g h : files) : onward f g -> onward g h -> onward f h.
Proof.
  intros [[c1 Hc1] [w1 Hw1]] [[c2 Hc2] [w2 Hw2]]. split.
  - exists (c1 ++ c2). rewrite Hc1, Hc2, app_assoc. reflexivity.
  - exists (w1 ++ w2). rewrite Hw2, Hw1, app_assoc. reflexivity.
Qed.

Lemma forward_ret {A : Type} (a : A) : forward (ret a).
Proof. intros f f' r [= _ <-]. apply onward_refl. Qed.

Lemma forward_raise {A : Type} (e : exn) : forward (@raise A e).
Proof. intros f f' r [= _ <-]. apply onward_refl. Qed.

Lemma forward_lift {A : Type} (r : result A) : forward (lift r).
Proof. intros f f' r' [= _ <-]. apply onward_refl. Qed.

Lemma forward_bind {A B : Type} (m : io A) (k : A -> io B) :
  forward m -> (forall a : A, forward (k a)) -> forward (bind m k).
Proof.
  intros Hm Hk f f' r. unfold bind.
  destruct (m f) as [[a | e] f1] eqn:Hmf.
  - intros Hkf. apply onward_trans with f1;
      [exact (Hm _ _ _ Hmf) | exact (Hk a _ _ _ Hkf)].
  - intros [= _ <-]. exact (Hm _ _ _ Hmf).
Qed.

Lemma read_splits (size : Z) (f data rest : bytes) :
  read size f = (data, rest) -> f = data ++ rest.
Proof.
  unfold read. destruct (size <? 0); intros [= <- <-].
  - rewrite app_nil_r. reflexivity.
  - rewrite firstn_skipn. reflexivity.
Qed.

Lemma forward_src_read (size : Z) : forward (src_read size).
Proof.
  intros f f' r. unfold src_read.
  destruct (read size (src f)) as [data rest] eqn:Hr.
  intros [= _ <-]. split; cbn [src dst].
  - exists data. exact (read_splits _ _ Hr).
  - exists []. rewrite app_nil_r. reflexivity.
Qed.

Lemma forward_dst_write (data : bytes) : forward (dst_write data).
Proof.
  intros f f' r [= _ <-]. split; cbn [src dst];
    [exists [] | exists data]; reflexivity.
Qed.

Lemma forward_read_int : forward read_int.
Proof.
  unfold read_int. apply forward_bind; [apply forward_src_read |].
  intros data. destruct (is_empty data);
    [apply forward_ret | apply forward_lift].
Qed.

Lemma forward_stream_decompress_turn : forward stream_decompress_turn.
Proof.
  unfold stream_decompress_turn.
  apply forward_bind; [apply forward_read_int |]. intros ulen.
  destruct (ulen =? 0); [apply forward_ret |].
  apply forward_bind; [apply forward_read_int |]. intros clen.
  destruct (clen =? 0); [apply forward_raise |].
  apply forward_bind; [apply forward_src_read |]. intros chunk.
  destruct (negb _); [apply forward_raise |].
  apply forward_bind; [apply forward_lift |]. intros u.
  destruct (negb _); [apply forward_raise |].
  apply forward_bind; [apply forward_dst_write |]. intros _.
  apply forward_ret.
Qed.

Lemma forward_src_read_size (size : number) : forward (src_read_size size).
Proof.
  destruct size as [n | x]; [apply forward_src_read | apply forward_raise].
Qed.

Lemma forward_stream_compress_turn (blocksize : number) :
  forward (stream_compress_turn blocksize).
Proof.
  unfold stream_compress_turn.
  apply forward_bind; [apply forward_src_read_size |]. intros buf.
  destruct (is_empty buf); [apply forward_ret |].
  apply forward_bind; [apply forward_lift |]. intros buf'.
  apply forward_bind; [| intros _; apply forward_ret].
  destruct (is_empty buf'); [apply forward_ret | apply forward_dst_write].
Qed.

Lemma forward_stream_decompress : forward (fun f => stream_decompress f).
Proof.
  intros f. remember (length (src f)) as k eqn:Hk. revert f Hk.
  induction k as [k IH] using lt_wf_ind. intros f Hk f' r.
  rewrite (stream_decompress_turns f).
  destruct (stream_decompress_turn f) as [[[|] | e] f1] eqn:Hturn.
  - intros Hrest. apply onward_trans with f1.
    + eapply forward_stream_decompress_turn; exact Hturn.
    + apply (IH (length (src f1))) with (r := r);
        [subst k; exact (stream_decompress_turn_shrinks _ Hturn)
        | reflexivity | exact Hrest].
  - intros [= _ <-]. eapply forward_stream_decompress_turn; exact Hturn.
  - intros [= _ <-]. eapply forward_stream_decompress_turn; exact Hturn.
Qed.

Lemma forward_stream_compress_loop (blocksize : number) :
  forward (fun f => stream_compress_loop blocksize f).
Proof.
  intros f. remember (length (src f)) as k eqn:Hk. revert f Hk.
  induction k as [k IH] using lt_wf_ind. intros f Hk f' r.
  rewrite (stream_compress_loop_turns blocksize f).
  destruct (stream_compress_turn blocksize f) as [[[|] | e] f1] eqn:Hturn.
  - intros Hrest. apply onward_trans with f1.
    + eapply forward_stream_compress_turn; exact Hturn.
    + apply (IH (length (src f1))) with (r := r);
        [subst k; exact (stream_compress_turn_shrinks _ _ Hturn)
        | reflexivity | exact Hrest].
  - intros [= _ <-]. eapply forward_stream_compress_turn; exact Hturn.
  - intros [= _ <-]. eapply forward_stream_compress_turn; exact Hturn.
Qed.

End IoFacts.

(** ** What [stream_decompress] and [stream_compress] never do *)

(** Whether they return or raise, [stream_decompress] and
    [stream_compress] only consume the source from its front and only
    append to the sink: what the sink held stays, in place. *)
Theorem streams_only_go_onward
  (C : Codec) (blocksize : option Z) (f : files) :
  onward f (snd (stream_decompress f))
  /\ onward f (snd (stream_compress blocksize f)).
Proof.
  split.
  - destruct (stream_decompress f) as [r f'] eqn:H.
    eapply forward_stream_decompress. exact H.
  - unfold stream_compress.
    destruct (hadoop_snappy_max_input_size blocksize) as [x | e];
      [| apply onward_refl].
    destruct (stream_compress_loop (Float x) f) as [r f'] eqn:H.
    eapply forward_stream_compress_loop. exact H.
Qed.

(** Neither function looks at what the sink already holds: with [out] in
    the sink they do what they do on an empty sink, after [out]. *)
Theorem streams_ignore_the_sink
  (C : Codec) (blocksize : option Z) (s out : bytes) :
  stream_decompress (Files s out)
  = (let (r, f') := stream_decompress (Files s []) in
     (r, Files (src f') (out ++ dst f')))
  /\ stream_compress blocksize (Files s out)
     = (let (r, f') := stream_compress blocksize (Files s []) in
        (r, Files (src f') (out ++ dst f'))).
Proof.
  split.
  - pose proof (sink_blind_stream_decompress out (Files s [])) as H.
    unfold with_sink in H. cbn [src dst] in H.
    rewrite app_nil_r in H. exact H.
  - unfold stream_compress.
    destruct (hadoop_snappy_max_input_size blocksize) as [x | e].
    + pose proof (sink_blind_stream_compress_loop (Float x) out
                    (Files s [])) as H.
      unfold with_sink in H. cbn [src dst] in H.
      rewrite app_nil_r in H. exact H.
    + cbn [src dst]. rewrite app_nil_r. reflexivity.
Qed.

(** ** What a normal return of [stream_decompress] means *)

(** The frame on the wire of a body [fst p] said to decode to [snd p]. *)
Definition decoded_frame (p : bytes * bytes) : bytes :=
  raw_frame (len (snd p)) (fst p).

Section Soundness.
Context {C : Codec}.

Lemma stream_decompress_turn_true (f f' : files) :
  stream_decompress_turn f = (Ok true, f') ->
  exists body u : bytes,
    src f = raw_frame (len u) body ++ src f'
    /\ uncompress body = Ok u /\ body <> [] /\ u <> []
    /\ dst f' = dst f ++ u.
Proof.
  unfold stream_decompress_turn, bind at 1.
  destruct (read_int f) as [[ulen | e] f1] eqn:H1; [| discriminate].
  apply read_int_cases in H1. destruct H1 as [Hd1 Hs1].
  destruct (ulen =? 0) eqn:Hz; [discriminate |]. comparisons.
  destruct Hs1 as [(_ & Hu & _) | [Hs1 _]]; [contradiction |].
  unfold bind at 1.
  destruct (read_int f1) as [[clen | e] f2] eqn:H2; [| discriminate].
  apply read_int_cases in H2. destruct H2 as [Hd2 Hs2].
  destruct (clen =? 0) eqn:Hz'; [discriminate |]. comparisons.
  destruct Hs2 as [(_ & Hc & _) | [Hs2 _]]; [contradiction |].
  unfold bind at 1, src_read.
  destruct (read clen (src f2)) as [chunk rest] eqn:Hr.
  apply read_splits in Hr.
  destruct (len chunk =? clen) eqn:Hl; [| discriminate]. comparisons.
  cbn [negb]. unfold bind at 1, lift.
  destruct (uncompress chunk) as [u | e] eqn:Hu; [| discriminate].
  destruct (len u =? ulen) eqn:Hlu; [| discriminate]. comparisons.
  cbn [negb]. unfold bind, dst_write, ret. cbn [src dst].
  intros [= <-]. cbn [src dst]. exists chunk, u.
  repeat split.
  - unfold raw_frame. rewrite Hs1, Hs2, Hr, Hlu, Hl, <- !app_assoc.
    reflexivity.
  - exact Hu.
  - intros ->. apply Hz'. rewrite <- Hl. reflexivity.
  - intros ->. apply Hz. rewrite <- Hlu. reflexivity.
  - rewrite Hd2, Hd1. reflexivity.
Qed.

Lemma stream_decompress_turn_false (f f' : files) :
  stream_decompress_turn f = (Ok false, f') ->
  dst f' = dst f
  /\ ((src f = [] /\ src f' = []) \/ src f = big_endian_uint 0 ++ src f').
Proof.
  unfold stream_decompress_turn, bind at 1.
  destruct (read_int f) as [[ulen | e] f1] eqn:H1; [| discriminate].
  apply read_int_cases in H1. destruct H1 as [Hd1 Hs1].
  destruct (ulen =? 0) eqn:Hz.
  - comparisons. subst ulen. unfold ret. intros [= <-].
    split; [exact Hd1 |].
    destruct Hs1 as [(Hs & _ & Hs') | [Hs _]]; [left | right]; auto.
  - unfold bind at 1.
    destruct (read_int f1) as [[clen | e] f2]; [| discriminate].
    destruct (clen =? 0); [discriminate |].
    unfold bind at 1, src_read.
    destruct (read clen (src f2)) as [chunk rest].
    destruct (negb _); [discriminate |].
    unfold bind at 1, lift.
    destruct (uncompress chunk) as [u | e]; [| discriminate].
    destruct (negb _); discriminate.
Qed.

Lemma stream_decompress_sound (f f' : files) :
  stream_decompress f = (Ok tt, f') ->
  exists (ps : list (bytes * bytes)) (stop : bytes),
    src f = concat (map decoded_frame ps) ++ stop ++ src f'
    /\ Forall (fun p => uncompress (fst p) = Ok (snd p)
                        /\ fst p <> [] /\ snd p <> []) ps
    /\ (stop = big_endian_uint 0 \/ (stop = [] /\ src f' = []))
    /\ dst f' = dst f ++ concat (map snd ps).
Proof.
  remember (length (src f)) as k eqn:Hk. revert f Hk.
  induction k as [k IH] using lt_wf_ind. intros f Hk.
  rewrite (stream_decompress_turns f).
  destruct (stream_decompress_turn f) as [[[|] | e] f1] eqn:Hturn;
    [| | discriminate].
  - intros Hrest.
    destruct (IH (length (src f1))) with (f := f1)
      as (ps & stop & Hs & Hall & Hstop & Hd);
      [subst k; exact (stream_decompress_turn_shrinks _ Hturn)
      | reflexivity | exact Hrest |].
    apply stream_decompress_turn_true in Hturn.
    destruct Hturn as (body & u & Hs1 & Hu & Hb & Hne & Hd1).
    exists ((body, u) :: ps), stop. repeat split.
    + cbn [map concat]. unfold decoded_frame at 1. cbn [fst snd].
      rewrite Hs1, Hs, <- !app_assoc. reflexivity.
    + constructor; [cbn [fst snd]; repeat split; assumption | exact Hall].
    + exact Hstop.
    + cbn [map concat snd]. rewrite Hd, Hd1, <- app_assoc. reflexivity.
  - intros [= <-]. apply stream_decompress_turn_false in Hturn.
    destruct Hturn as [Hd [[Hs Hs'] | Hs]].
    + exists [], []. repeat split.
      * rewrite Hs, Hs'. reflexivity.
      * constructor.
      * right. split; [reflexivity | exact Hs'].
      * cbn. rewrite app_nil_r. exact Hd.
    + exists [], (big_endian_uint 0). repeat split.
      * exact Hs.
      * constructor.
      * left. reflexivity.
      * cbn [map concat]. rewrite app_nil_r. exact Hd.
Qed.

End Soundness.

(** When [stream_decompress] returns, the bytes it consumed are frames
    one after the other, each with a body that is not empty and that the
    codec decodes to as many bytes as the frame declares, not zero; they
    are followed by a zero length field or by the end of the source; and
    what was written is what the bodies decode to, in order. *)
Theorem stream_decompress_returns_decoded_frames
  (C : Codec) (f f' : files) :
  stream_decompress f = (Ok tt, f') ->
  exists (ps : list (bytes * bytes)) (stop : bytes),
    src f = concat (map decoded_frame ps) ++ stop ++ src f'
    /\ Forall (fun p => uncompress (fst p) = Ok (snd p)
                        /\ fst p <> [] /\ snd p <> []) ps
    /\ (stop = big_endian_uint 0 \/ (stop = [] /\ src f' = []))
    /\ dst f' = dst f ++ concat (map snd ps).
Proof. apply stream_decompress_sound. Qed.

Lemma stream_decompress_returns_decoded_frames_witness :
  exists (ps : list (bytes * bytes)) (stop : bytes),
    [x00; x00; x00; x01; x00; x00; x00; x02; x00; x68;
     x00; x00; x00; x00; x07]
    = concat (map decoded_frame ps) ++ stop ++ [x07]
    /\ Forall (fun p => uncompress (Codec := TestCodecs.stored) (fst p)
                        = Ok (snd p)
                        /\ fst p <> [] /\ snd p <> []) ps
    /\ (stop = big_endian_uint 0 \/ (stop = [] /\ [x07] = []))
    /\ [x68] = [] ++ concat (map snd ps).
Proof.
  exact (@stream_decompress_returns_decoded_frames TestCodecs.stored
           (Files [x00; x00; x00; x01; x00; x00; x00; x02; x00; x68;
                   x00; x00; x00; x00; x07] [])
           (Files [x07] [x68]) eq_refl).
Defined.

(** ** Frames that are refused *)

(** A compressed length of zero is refused, also when it was read from a
    complete field: [UncompressError], the sink as it was, the source
    consumed up to the end of the field. *)
Theorem zero_compressed_length_raises
  (C : Codec) (ulen : Z) (rest out : bytes) :
  0 < ulen <= UINT_MAX ->
  stream_decompress
    (Files (big_endian_uint ulen ++ big_endian_uint 0 ++ rest) out)
  = (Raise (UncompressError Failed_to_read_compressed_chunk_length),
     Files rest out).
Proof.
  intros Hu. rewrite stream_decompress_turns.
  unfold stream_decompress_turn, bind at 1.
  rewrite read_int_field by lia.
  destruct (ulen =? 0) eqn:Hz; [comparisons; lia |].
  unfold bind at 1. rewrite read_int_field by (unfold UINT_MAX; lia).
  reflexivity.
Qed.

Lemma zero_compressed_length_raises_witness :
  stream_decompress (C := TestCodecs.stored)
    (Files (big_endian_uint 3 ++ big_endian_uint 0 ++ [x68; x69; x6a]) [])
  = (Raise (UncompressError Failed_to_read_compressed_chunk_length),
     Files [x68; x69; x6a] []).
Proof.
  apply (@zero_compressed_length_raises TestCodecs.stored 3
           [x68; x69; x6a] []).
  unfold UINT_MAX. lia.
Defined.

(** What the codec raises on the body of a complete frame is raised by
    [stream_decompress] as it is; nothing of that frame is written, and
    the frame has been consumed. *)
Theorem codec_error_propagates
  (C : Codec) (ulen : Z) (body rest out : bytes) (e : exn) :
  0 < ulen <= UINT_MAX -> 0 < len body <= UINT_MAX ->
  uncompress body = Raise e ->
  stream_decompress (Files (raw_frame ulen body ++ rest) out)
  = (Raise e, Files rest out).
Proof.
  intros Hu Hb He. rewrite stream_decompress_turns.
  rewrite stream_decompress_turn_raw_frame by assumption.
  rewrite He. reflexivity.
Qed.

Lemma codec_error_propagates_witness :
  stream_decompress (C := TestCodecs.stored)
    (Files (raw_frame 1 [x01; x68] ++ [x07]) [x69])
  = (Raise (UncompressError Invalid_compressed_block), Files [x07] [x69]).
Proof.
  apply (@codec_error_propagates TestCodecs.stored 1 [x01; x68] [x07]
           [x69] (UncompressError Invalid_compressed_block)).
  - unfold UINT_MAX. lia.
  - unfold UINT_MAX, len. simpl. lia.
  - reflexivity.
Defined.

(** ** [stream_compress] on every source *)

Lemma finite_or_overflow_raises (x : SpecFloat.spec_float) (e : exn) :
  PythonNumbers.finite_or_overflow x = Raise e -> e = OverflowError.
Proof. destruct x; cbn [PythonNumbers.finite_or_overflow]; congruence. Qed.

Lemma float_of_int_raises (z : Z) (e : exn) :
  PythonNumbers.float_of_int z = Raise e -> e = OverflowError.
Proof.
  unfold PythonNumbers.float_of_int.
  destruct (PythonNumbers.is_small z); [discriminate |].
  apply finite_or_overflow_raises.
Qed.

Lemma int_true_divide_raises (a b : Z) (e : exn) :
  PythonNumbers.int_true_divide a b = Raise e -> e = OverflowError.
Proof.
  unfold PythonNumbers.int_true_divide.
  destruct (PythonNumbers.is_small a && PythonNumbers.is_small b);
    [discriminate |].
  apply finite_or_overflow_raises.
Qed.

(** The sizing raises nothing but [OverflowError]. *)
Lemma max_input_size_raises (block_size : option Z) (e : exn) :
  hadoop_snappy_max_input_size block_size = Raise e -> e = OverflowError.
Proof.
  unfold hadoop_snappy_max_input_size.
  match goal with
  | |- context [PythonNumbers.int_true_divide ?b 6] =>
      generalize b; intros buffer_size
  end.
  destruct (PythonNumbers.int_true_divide buffer_size 6) as [q | e1] eqn:Hq.
  - unfold PythonNumbers.float_add_int, PythonNumbers.int_sub_float.
    destruct (PythonNumbers.float_of_int 32) as [y | e2] eqn:H32.
    + destruct (PythonNumbers.float_of_int buffer_size) as [z | e3] eqn:Hb;
        [discriminate |].
      intros [= <-]. exact (float_of_int_raises _ Hb).
    + intros [= <-]. exact (float_of_int_raises _ H32).
  - intros [= <-]. exact (int_true_divide_raises _ _ Hq).
Qed.

(** [stream_compress] never returns: whatever the block size, the source
    and the sink, it raises [TypeError] at its first [src.read], or
    [OverflowError] in the sizing before it, and nothing was read or
    written. It is [TypeError] for every block size below [2^53] in
    absolute value, and [OverflowError] for the block size [2^1024]. *)
Theorem stream_compress_never_returns
  (C : Codec) (blocksize : option Z) (f : files) :
  (exists e : exn,
      stream_compress blocksize f = (Raise e, f)
      /\ (e = TypeError \/ e = OverflowError))
  /\ (forall b : Z,
         blocksize = Some b -> Z.abs b < 9007199254740992 ->
         stream_compress blocksize f = (Raise TypeError, f))
  /\ stream_compress (Some (2 ^ 1024)) f = (Raise OverflowError, f).
Proof.
  split; [| split].
  - unfold stream_compress.
    destruct (hadoop_snappy_max_input_size blocksize) as [x | e] eqn:Hsize.
    + exists TypeError. split; [apply stream_compress_loop_float |].
      left. reflexivity.
    + exists e. split; [reflexivity |]. right.
      exact (max_input_size_raises _ Hsize).
  - intros b -> Hb. unfold stream_compress.
    destruct (@max_input_size_small b) as [x ->].
    { unfold PythonNumbers.is_small. apply Z.ltb_lt. exact Hb. }
    apply stream_compress_loop_float.
  - unfold stream_compress.
    assert (Hsize : hadoop_snappy_max_input_size (Some (2 ^ 1024))
                    = Raise OverflowError) by (vm_compute; reflexivity).
    rewrite Hsize. reflexivity.
Qed.

Lemma stream_compress_never_returns_witness :
  stream_compress (C := TestCodecs.stored) (Some 65536)
    (Files [x68; x69] [x07])
  = (Raise TypeError, Files [x68; x69] [x07]).
Proof.
  destruct (@stream_compress_never_returns TestCodecs.stored (Some 65536)
              (Files [x68; x69] [x07])) as (_ & H & _).
  apply (H 65536); reflexivity.
Defined.

(** ** The loop of [stream_compress] with a whole number to read *)

(** Entered with an [int] [n > 0] for the read size, which
    [stream_compress] itself never has, the loop consumes the source and
    writes frames that [stream_decompress] decodes to the source: the
    round trip fails on the read size alone. *)
Theorem stream_compress_loop_round_trip
  (C : Codec) (L : CodecLaws C) (n : Z) (d : bytes) :
  0 < n -> 32 + n + n / 6 <= UINT_MAX ->
  exists encoded : bytes,
    stream_compress_loop (Int n) (Files d []) = (Ok tt, Files [] encoded)
    /\ stream_decompress (Files encoded []) = (Ok tt, Files [] d).
Proof.
  intros Hn Hb.
  destruct (@stream_compress_loop_frames C L n Hn Hb d [])
    as (ds & Hcat & Hall & _ & Hrun).
  exists (frames ds). split; [exact Hrun |].
  rewrite <- (app_nil_r (frames ds)).
  rewrite stream_decompress_frames by exact Hall.
  rewrite Hcat. apply stream_decompress_at_end.
Qed.

Lemma stream_compress_loop_round_trip_witness :
  exists encoded : bytes,
    stream_compress_loop (C := TestCodecs.stored) (Int 2)
      (Files [x68; x69; x6a] [])
    = (Ok tt, Files [] encoded)
    /\ stream_decompress (C := TestCodecs.stored) (Files encoded [])
       = (Ok tt, Files [] [x68; x69; x6a]).
Proof.
  apply (@stream_compress_loop_round_trip TestCodecs.stored stored_laws 2
           [x68; x69; x6a]); [lia | apply Z.leb_le; reflexivity].
Defined.

(** ** The compressor as an object *)

Module CompressorObject.
Import String.StringSyntax.
Local Open Scope string_scope.

(** The name of the attribute that [copy] reads. *)
Definition _header_chunk_written : String.string :=
  "_header_chunk_written".

(** The attributes an instance holds, by name, the latest first. *)
Definition instance : Type := list (String.string * bool).

Inductive attribute_error : Type :=
| AttributeError (name : String.string).

Fixpoint getattr (self : instance) (name : String.string) : option bool :=
  match self with
  | [] => None
  | (n, v) :: self' =>
      if String.eqb n name then Some v else getattr self' name
  end.

Definition setattr (self : instance) (name : String.string) (v : bool)
  : instance :=
  (name, v) :: self.

(** [StreamCompressor()]: [__init__] sets nothing. *)
Definition __init__ : instance := [].

Section WithCodec.
Context {C : Codec}.

(** The methods, with the instance they leave. *)
Definition add_chunk (self : instance) (data : bytes)
  : result bytes * instance :=
  (StreamCompressor.add_chunk data, self).

Definition compress (self : instance) (data : bytes)
  : result bytes * instance :=
  add_chunk self data.

Definition flush (self : instance) : unit * instance := (tt, self).

Definition copy (self : instance) : instance + attribute_error :=
  let copy := __init__ in
  match getattr self _header_chunk_written with
  | None => inr (AttributeError _header_chunk_written)
  | Some v => inl (setattr copy _header_chunk_written v)
  end.

(** A call of one of the methods that return. *)
Inductive call : Type :=
| call_add_chunk (data : bytes)
| call_compress (data : bytes)
| call_flush.

Definition after (self : instance) (c : call) : instance :=
  match c with
  | call_add_chunk data => snd (add_chunk self data)
  | call_compress data => snd (compress self data)
  | call_flush => snd (flush self)
  end.

End WithCodec.
End CompressorObject.

(** [copy] raises [AttributeError] on a compressor that was constructed
    and then used through [add_chunk], [compress] and [flush] only, in
    any number and order: none of them sets the attribute that [copy]
    reads. It returns a new compressor, holding that attribute alone,
    only once a caller has set it. *)
Theorem copy_raises_attribute_error
  (C : Codec) (calls : list CompressorObject.call)
  (self : CompressorObject.instance) (v : bool) :
  CompressorObject.copy
    (fold_left CompressorObject.after calls CompressorObject.__init__)
  = inr (CompressorObject.AttributeError
           CompressorObject._header_chunk_written)
  /\ CompressorObject.copy
       (CompressorObject.setattr self
          CompressorObject._header_chunk_written v)
     = inl (CompressorObject.setattr CompressorObject.__init__
              CompressorObject._header_chunk_written v).
Proof.
  split; [| reflexivity].
  assert (H : fold_left CompressorObject.after calls
                CompressorObject.__init__
              = CompressorObject.__init__).
  { generalize CompressorObject.__init__.
    induction calls as [| c calls IH]; intros s; [reflexivity |].
    cbn [fold_left]. destruct c; apply IH. }
  rewrite H. reflexivity.
Qed.
